(** * Raffle wheel (src/raffle_streamlit_app.py) and raffle list builder
    (src/build_raffle_list.py, build_entries of the Streamlit app).

    The wheel is the script embedded by [render_wheel]. Its page state, slice
    geometry and easing are read over exact rationals (2*Math.PI is the
    double's exact value). The end of a spin, where rounding decides the
    winner, is modelled in IEEE binary64 as well (module [Dbl], on the
    Standard Library's [SpecFloat]). *)

From Stdlib Require Import QArith Qround Qminmax Lqa ZArith Lia List Ascii String Bool.
From Stdlib Require Import Floats.SpecFloat.
Import ListNotations.
Open Scope Q_scope.

(** ** Numeric helpers of the page script *)

(** [Math.PI] as an IEEE double, exactly. *)
Definition Math_PI : Q := 884279719003555 # 281474976710656.
Definition TWO_PI : Q := 2 * Math_PI.

(** Truncation toward zero, the quotient used by JavaScript's [%]. *)
Definition Qtrunc (x : Q) : Z := if Qle_bool 0 x then Qfloor x else Qceiling x.

(** [a % n] in JavaScript: the remainder carries the sign of [a]. *)
Definition js_rem (a n : Q) : Q := a - n * inject_Z (Qtrunc (a / n)).

(** [function mod(a,n){return ((a%n)+n)%n}] *)
Definition js_mod (a n : Q) : Q := js_rem (js_rem a n + n) n.

(** [function easeOutCubic(t){return 1-Math.pow(1-t,3)}] *)
Definition easeOutCubic (t : Q) : Q := 1 - (1 - t) ^ 3.

(** ** Slices: [const n = Math.max(1, labels.length), slice = 2*Math.PI/n] *)

Definition slice_count (labels : list string) : Z := Z.max 1 (Z.of_nat (List.length labels)).
Definition slice_angle (labels : list string) : Q := TWO_PI / inject_Z (slice_count labels).

(** [function winnerIndex(rot)]: pointer at angle 0 (right). *)
Definition winnerIndex (labels : list string) (rot : Q) : nat :=
  let n := slice_count labels in
  let slice := slice_angle labels in
  let p := js_mod (0 - rot) TWO_PI in
  Z.to_nat (Z.min (n - 1) (Qfloor (p / slice))).

(** The wedge [i] painted by [draw(rot)]: from [rot + i*slice] to [rot + (i+1)*slice]. *)
Definition wedge_start (labels : list string) (rot : Q) (i : nat) : Q :=
  rot + inject_Z (Z.of_nat i) * slice_angle labels.
Definition wedge_end (labels : list string) (rot : Q) (i : nat) : Q :=
  rot + inject_Z (Z.of_nat i + 1) * slice_angle labels.

(** Total angle painted by the loop [for(let i=0;i<n;i++)]. *)
Fixpoint painted (labels : list string) (rot : Q) (k : nat) : Q :=
  match k with
  | O => 0
  | S k' => painted labels rot k' + (wedge_end labels rot k' - wedge_start labels rot k')
  end.

(** ** The page script's state

    [INIT] is the JSON object written by [render_wheel]; the page holds the
    globals [labels], [fulls], [rotation], [spinning], [lastIdx], the disabled
    flag of the two eliminate buttons, the winner line, and the frame closure
    of the spin in flight (scheduled with [requestAnimationFrame]). *)

Record Init := mkInit {
  init_labels : list string;
  init_fulls : list string;
  durationMs : Q;
  minSpins : Q;
  maxSpins : Q
}.

(** [render_wheel(display_names, full_entries)] *)
Definition render_wheel (display_names full_entries : list string) : Init :=
  mkInit display_names full_entries 5000 6 6.

(** What the closure [frame] captures: [t0], [start], [total], [dur]. *)
Record Anim := mkAnim { t0 : Q; start : Q; total : Q; dur : Q }.

Record Page := mkPage {
  labels : list string;
  fulls : list string;
  rotation : Q;
  spinning : bool;
  lastIdx : option nat;
  elimsDisabled : bool;
  winnerFull : string;
  anim : option Anim
}.

(** Initial globals; the eliminate buttons start [disabled]. *)
Definition init_page (INIT : Init) : Page :=
  mkPage (init_labels INIT) (init_fulls INIT) 0 false None true "" None.

(** [x || d] on numbers: [0] (and a missing field) falls back to [d]. *)
Definition js_or_num (x d : Q) : Q := if Qeq_bool x 0 then d else x.

(** [x || d] on an array read: [undefined] and [""] fall back to [d]. *)
Definition js_or_str (x : option string) (d : string) : string :=
  match x with
  | Some v => if String.eqb v "" then d else v
  | None => d
  end.

Definition spin_total (INIT : Init) (r : Q) : Q :=
  js_or_num (maxSpins INIT) 6 * 2 * Math_PI + r * 2 * Math_PI.

Definition spin_dur (INIT : Init) : Q :=
  Qmax 400 (Qmin 10000 (js_or_num (durationMs INIT) 5000)).

(** [function spin()]; [r] is the value returned by [Math.random()] and
    [now] the value of [performance.now()]. *)
Definition spin_click (INIT : Init) (r now : Q) (s : Page) : Page :=
  if spinning s || (List.length (labels s) <? 2)%nat then s
  else mkPage (labels s) (fulls s) (rotation s) true (lastIdx s) true ""
         (Some (mkAnim now (rotation s) (spin_total INIT r) (spin_dur INIT))).

(** [p] and the rotation computed by [frame(t)]. *)
Definition progress (a : Anim) (t : Q) : Q := Qmin 1 ((t - t0 a) / dur a).
Definition rot_at (a : Anim) (t : Q) : Q :=
  js_mod (start a + total a * easeOutCubic (progress a t)) TWO_PI.

(** The spec's [clamp(x, 0, 1)], for comparison with [progress]. *)
Definition spec_clamp01 (x : Q) : Q := Qmax 0 (Qmin 1 x).

(** The body of [const frame = (t)=>{...}]: below [p = 1] it reschedules
    itself; at [p >= 1] it records the winner and ends the spin. *)
Definition frame (a : Anim) (t : Q) (s : Page) : Page :=
  let p := progress a t in
  let rot := rot_at a t in
  if negb (Qle_bool 1 p) then
    mkPage (labels s) (fulls s) rot (spinning s) (lastIdx s) (elimsDisabled s) (winnerFull s) (Some a)
  else
    let i := winnerIndex (labels s) rot in
    let full := js_or_str (nth_error (fulls s) i) (js_or_str (nth_error (labels s) i) "") in
    mkPage (labels s) (fulls s) rot false (Some i) false full None.

(** One animation frame delivered by the browser at time [t]. *)
Definition tick (t : Q) (s : Page) : Page :=
  match anim s with
  | Some a => frame a t s
  | None => s
  end.

(** [resetBtn.onclick]: it does not touch [spinning] nor the frame in flight. *)
Definition reset_click (INIT : Init) (s : Page) : Page :=
  mkPage (init_labels INIT) (init_fulls INIT) 0 (spinning s) None true "" (anim s).

(** [arr.splice(i,1)] *)
Definition splice_at {A} (i : nat) (l : list A) : list A := firstn i l ++ skipn (S i) l.

(** [rm1.onclick] *)
Definition rm1_click (s : Page) : Page :=
  match lastIdx s with
  | None => s
  | Some i =>
      mkPage (splice_at i (labels s)) (splice_at i (fulls s)) (rotation s) (spinning s)
        None true (winnerFull s) (anim s)
  end.

(** The loop of [rmAll.onclick]: walks [labels] and reads [fulls] at the same
    index. A [fulls] shorter than [labels] would push [undefined] in the
    script; the walk pushes nothing then (it never happens, see
    [page_invariant]). *)
Fixpoint rmAll_loop (keep : string -> bool) (ls fs : list string) : list string * list string :=
  match ls with
  | [] => ([], [])
  | x :: ls' =>
      let f := hd_error fs in
      let '(L, F) := rmAll_loop keep ls' (tl fs) in
      if keep x then (x :: L, match f with Some v => v :: F | None => F end) else (L, F)
  end.

(** [rmAll.onclick]: [labels[i]!==n] with [n = labels[lastIdx]] ([undefined]
    when out of range, which no label equals). *)
Definition rmAll_click (s : Page) : Page :=
  match lastIdx s with
  | None => s
  | Some i =>
      let n := nth_error (labels s) i in
      let keep x := match n with Some v => negb (String.eqb x v) | None => true end in
      let '(L, F) := rmAll_loop keep (labels s) (fulls s) in
      mkPage L F (rotation s) (spinning s) None true (winnerFull s) (anim s)
  end.

(** Everything the page can do from its initial state: clicks on the buttons
    (the eliminate buttons only while enabled) and animation frames. *)
Inductive reachable (INIT : Init) : Page -> Prop :=
| R_init : reachable INIT (init_page INIT)
| R_spin s r now : reachable INIT s -> 0 <= r < 1 -> reachable INIT (spin_click INIT r now s)
| R_tick s t : reachable INIT s -> reachable INIT (tick t s)
| R_reset s : reachable INIT s -> reachable INIT (reset_click INIT s)
| R_rm1 s : reachable INIT s -> elimsDisabled s = false -> reachable INIT (rm1_click s)
| R_rmAll s : reachable INIT s -> elimsDisabled s = false -> reachable INIT (rmAll_click s).

(** ** Raffle entries: [build_entries] (app) and [build_raffle_entries] (script)

    A row keeps the five required columns (a table missing one is rejected
    before any row is read); a cell read with [dtype=str] is a string or NaN
    ([None]). *)

Definition cell := option string.

Record Row := mkRow {
  ID1 : cell;
  FullName : cell;
  Email1 : cell;
  PhoneNumber : cell;
  TicketsPurchased : cell
}.

(** The values of a float column after [pd.to_numeric]: NaN, a finite
    number, or an infinity ([neg] for [-inf]). *)
Inductive pnum := PNaN | PFin (q : Q) | PInf (neg : bool).

(** numpy's [float64 -> int64] conversion: truncation toward zero; a value
    outside the [int64] range gives [INT64_MIN] (the x86-64 conversion). *)
Definition INT64_MIN : Z := (- 2 ^ 63)%Z.
Definition INT64_MAX : Z := (2 ^ 63 - 1)%Z.
Definition int64_cast (q : Q) : Z :=
  let z := Qtrunc q in
  if (INT64_MIN <=? z)%Z && (z <=? INT64_MAX)%Z then z else INT64_MIN.

Section Builder.

(** Python's [str.strip()] and pandas' parse of one string by
    [pd.to_numeric(..., errors="coerce")] (unparsable text gives NaN). *)
Variable strip : string -> string.
Variable to_numeric : string -> pnum.

(** [clean_cell(x)] *)
Definition clean_cell (x : cell) : string :=
  match x with None => "" | Some v => strip v end.

(** [df["ID1"].astype(str).str.strip() == str(id_value).strip()] on one row.
    With pandas 3 the string column keeps NaN as a missing value through
    [astype(str)] and [str.strip()], and a missing value compares unequal. *)
Definition id_matches (id_value : string) (r : Row) : bool :=
  match ID1 r with
  | None => false
  | Some v => String.eqb (strip v) (strip id_value)
  end.

(** The [lambda r: f"{...}{separator}{...}{separator}{...}"] of [apply]. *)
Definition combine_row (separator : string) (r : Row) : string :=
  clean_cell (FullName r) ++ separator ++ clean_cell (Email1 r) ++ separator
  ++ clean_cell (PhoneNumber r).

(** [pd.to_numeric(col, errors="coerce").fillna(0)] on one cell. *)
Definition ticket_numeric (x : cell) : pnum :=
  match x with
  | None => PFin 0
  | Some v => match to_numeric v with PNaN => PFin 0 | p => p end
  end.

(** [.astype(int)] on one value: a non-finite value makes the whole cast
    raise ([IntCastingNaNError]); a finite one is converted to [int64] by
    [int64_cast]. *)
Definition astype_int (p : pnum) : option Z :=
  match p with PFin q => Some (int64_cast q) | _ => None end.

(** The ticket column: [.astype(int).clip(lower=0)]; [None] when the cast raises. *)
Fixpoint tickets_of (rows : list Row) : option (list Z) :=
  match rows with
  | [] => Some []
  | r :: rs =>
      match astype_int (ticket_numeric (TicketsPurchased r)), tickets_of rs with
      | Some k, Some ks => Some (Z.max 0 k :: ks)
      | _, _ => None
      end
  end.

(** [combined.repeat(tickets)] *)
Fixpoint repeat_by (xs : list string) (ks : list Z) : list string :=
  match xs, ks with
  | x :: xs', k :: ks' => repeat x (Z.to_nat k) ++ repeat_by xs' ks'
  | _, _ => []
  end.

(** The column [Entry] of [build_entries(df, id_value, separator)];
    [None] when the function raises. [build_raffle_entries] of the script
    runs the same steps with [id_value = "6610"] and [separator = " - "]. *)
Definition build_entries (id_value separator : string) (df : list Row) : option (list string) :=
  let filtered := filter (id_matches id_value) df in
  match filtered with
  | [] => Some []
  | _ =>
      let combined := map (combine_row separator) filtered in
      match tickets_of filtered with
      | Some tickets => Some (repeat_by combined tickets)
      | None => None
      end
  end.

End Builder.

(** The number of copies of a row when its ticket cell is finite:
    [max(0, int64_cast(T))]. *)
Definition ticket_copies (to_numeric : string -> pnum) (r : Row) : nat :=
  match ticket_numeric to_numeric (TicketsPurchased r) with
  | PFin q => Z.to_nat (Z.max 0 (int64_cast q))
  | _ => O
  end.

(** ** More of the page script: slice colours and label fitting *)

(** [Math.round(x)]: the nearest integer, halves rounded up. *)
Definition js_round (x : Q) : Z := Qfloor (x + (1 # 2)).

(** [arr[m]] on an array literal: [undefined] ([None]) unless [m] is an
    integer index inside the array. *)
Definition js_index (xs : list Q) (m : Q) : option Q :=
  if Qeq_bool m (inject_Z (Qfloor m)) && (0 <=? Qfloor m)%Z
  then nth_error xs (Z.to_nat (Qfloor m)) else None.

(** The doubles [.95] and [.75]. *)
Definition hsv_v : Q := 4278419646001971 # 4503599627370496.
Definition hsv_s : Q := 3 # 4.

(** [function hsv(i,n)]: the three channels of the [rgb(r,g,b)] string it
    returns; [None] if a channel read [undefined] (it would print NaN). *)
Definition hsv (i n : Q) : option (Z * Z * Z) :=
  let h := js_rem (i / Qmax 1 n) 1 in
  let s := hsv_s in
  let v := hsv_v in
  let f := h * 6 in
  let p := v * (1 - s) in
  let q := v * (1 - js_rem f 1 * s) in
  let t := v * (1 - (1 - js_rem f 1) * s) in
  let m := js_rem (inject_Z (Qfloor f)) 6 in
  match js_index [v; q; p; p; t; v] m, js_index [t; v; v; q; p; p] m,
        js_index [p; p; t; v; v; q] m with
  | Some r, Some g, Some b => Some (js_round (r * 255), js_round (g * 255), js_round (b * 255))
  | _, _, _ => None
  end.

Section AutoFit.

(** [ctx.measureText(name).width] once the font is set to a size, and
    [maxW = (labelEnd - labelStart) * 0.95]. *)
Variable measure : Z -> Q.
Variable maxW : Q.

(** [while (w > maxW && font > 9){ font -= 1; ...; w = ctx.measureText(name).width; }] *)
Fixpoint shrink_font (fuel : nat) (font : Z) : Z :=
  match fuel with
  | O => font
  | S k =>
      if negb (Qle_bool (measure font) maxW) && (9 <? font)%Z
      then shrink_font k (font - 1) else font
  end.

(** [let font = 18]; the loop stops at [9] at the latest, after [18 - 9] steps. *)
Definition label_font : Z := shrink_font 9 18.

End AutoFit.

(** ** The [info] dict of [build_entries] *)

Record Info := mkInfo {
  kept_rows : nat;
  total_rows : nat;
  generated_entries : nat;
  nonzero_ticket_rows : nat;
  zero_ticket_rows : nat
}.

(** The counts [build_entries] reports with ["ok": True] (the ["message"]
    apart); [None] when it raises. *)
Definition build_entries_info (strip : string -> string) (to_numeric : string -> pnum)
    (id_value separator : string) (df : list Row) : option Info :=
  let filtered := filter (id_matches strip id_value) df in
  match filtered with
  | [] => Some (mkInfo 0 (List.length df) 0 0 0)
  | _ =>
      let combined := map (combine_row strip separator) filtered in
      match tickets_of to_numeric filtered with
      | Some tickets =>
          let out := repeat_by combined tickets in
          Some (mkInfo (List.length filtered) (List.length df) (List.length out)
                  (List.length (filter (fun k => 0 <? k)%Z tickets))
                  (List.length (filter (fun k => k =? 0)%Z tickets)))
      | None => None
      end
  end.

(** ** Invariant of the page globals *)

(** [spinning] is set exactly while a frame closure is scheduled, during
    which the eliminate buttons stay disabled and the wheel has at least two
    slices; enabled buttons come with a recorded winner; [lastIdx] indexes
    [labels]; [rotation] stays within one turn; eliminations never grow the
    wheel beyond [INIT.labels]. *)
Definition page_ok (INIT : Init) (s : Page) : Prop :=
  (spinning s = true <-> anim s <> None) /\
  (anim s <> None -> elimsDisabled s = true /\ (2 <= List.length (labels s))%nat /\
     (2 <= List.length (init_labels INIT))%nat) /\
  (elimsDisabled s = false -> lastIdx s <> None) /\
  (forall i, lastIdx s = Some i -> (i < List.length (labels s))%nat) /\
  (0 <= rotation s < TWO_PI) /\
  (List.length (labels s) <= List.length (init_labels INIT))%nat.

(** ** The winner log of [frame] *)

(** [String.prototype.split(" - ")]: scans left to right and cuts at each
    occurrence of [" - "], skipping it. *)
Definition cons_head (c : ascii) (l : list string) : list string :=
  match l with
  | x :: xs => String c x :: xs
  | [] => [String c ""]
  end.

Fixpoint split_dash (s : string) : list string :=
  match s with
  | EmptyString => [""%string]
  | String c rest =>
      match rest with
      | String c1 (String c2 rest') =>
          if Ascii.eqb c " " && Ascii.eqb c1 "-" && Ascii.eqb c2 " "
          then ""%string :: split_dash rest'
          else cons_head c (split_dash rest)
      | _ => cons_head c (split_dash rest)
      end
  end.

(** Whether [" - "] occurs in a string. *)
Fixpoint has_sep (s : string) : bool :=
  match s with
  | EmptyString => false
  | String c rest =>
      match rest with
      | String c1 (String c2 _) =>
          (Ascii.eqb c " " && Ascii.eqb c1 "-" && Ascii.eqb c2 " ") || has_sep rest
      | _ => false
      end
  end.

Section WinnerLog.

(** JavaScript's [String.prototype.trim]. *)
Variable trim : string -> string.

(** [name], [email] and [phone] of the record [rec]:
    [(parts[i]||"").trim()] with [parts = (full || "").split(" - ")]. *)
Definition log_fields (full : string) : string * string * string :=
  let parts := split_dash full in
  (trim (js_or_str (nth_error parts 0) ""), trim (js_or_str (nth_error parts 1) ""),
   trim (js_or_str (nth_error parts 2) "")).

End WinnerLog.

(** [s.partition(" - ")[0].strip() or s]: the wheel label of an entry
    ([partition] cuts at the first [" - "], as the head of the split does). *)
Definition display_name (strip : string -> string) (s : string) : string :=
  let x := strip (hd ""%string (split_dash s)) in
  if String.eqb x "" then s else x.

(** ** The end of a spin in IEEE binary64

    The script's numbers are doubles: [SFadd], [SFsub], [SFmul] and [SFdiv]
    of [SpecFloat] at 53 bits of mantissa and exponents up to 1024 are
    JavaScript's [+], [-], [*] and [/] (round to nearest, ties to even). *)

Module Dbl.

Definition prec : Z := 53%Z.
Definition emax : Z := 1024%Z.

Definition add := SFadd prec emax.
Definition sub := SFsub prec emax.
Definition mul := SFmul prec emax.
Definition div := SFdiv prec emax.

(** [a < b] *)
Definition ltb := SFltb.

(** The double [m * 2^e] (a literal of the script when it is exact). *)
Definition num (m e : Z) : spec_float := binary_normalize prec emax m e false.
Definition zero : spec_float := S754_zero false.
Definition one : spec_float := num 1 0.

(** [Math.PI] *)
Definition PI : spec_float := S754_finite false 7074237752028440 (-51).

(** [x % y]: the exact remainder, with the sign of [x]. *)
Definition js_rem (x y : spec_float) : spec_float :=
  match x, y with
  | S754_nan, _ | _, S754_nan | S754_infinity _, _ | _, S754_zero _ => S754_nan
  | _, S754_infinity _ | S754_zero _, _ => x
  | S754_finite sx mx ex, S754_finite _ my ey =>
      let ez := Z.min ex ey in
      match Z.rem (Zpos (fst (shl_align mx ex ez))) (Zpos (fst (shl_align my ey ez))) with
      | Z0 => S754_zero sx
      | r => binary_normalize prec emax (cond_Zopp sx r) ez sx
      end
  end.

(** [Math.floor(x)] *)
Definition floor (x : spec_float) : spec_float :=
  match x with
  | S754_finite s m e =>
      if Z.leb 0 e then x
      else match Z.div (cond_Zopp s (Zpos m)) (Z.pow 2 (Z.opp e)) with
           | Z0 => S754_zero s
           | q => binary_normalize prec emax q 0 s
           end
  | _ => x
  end.

(** [Math.min(a,b)] and [Math.max(a,b)]: NaN wins, [-0 < +0]. *)
Definition min (a b : spec_float) : spec_float :=
  match a, b with
  | S754_nan, _ | _, S754_nan => S754_nan
  | S754_zero sa, S754_zero sb => S754_zero (orb sa sb)
  | _, _ => if SFltb b a then b else a
  end.

Definition max (a b : spec_float) : spec_float :=
  match a, b with
  | S754_nan, _ | _, S754_nan => S754_nan
  | S754_zero sa, S754_zero sb => S754_zero (andb sa sb)
  | _, _ => if SFltb a b then b else a
  end.

(** [function mod(a,n){return ((a%n)+n)%n}] *)
Definition js_mod (a n : spec_float) : spec_float := js_rem (add (js_rem a n) n) n.

(** [function winnerIndex(rot)] *)
Definition winnerIndex (labels : list string) (rot : spec_float) : spec_float :=
  let n := max one (num (Z.of_nat (List.length labels)) 0) in
  let slice := div (mul (num 2 0) PI) n in
  let p := js_mod (sub zero rot) (mul (num 2 0) PI) in
  min (sub n one) (floor (div p slice)).

(** [x || d] on a number: [0], [-0] and NaN fall back to [d]. *)
Definition or_num (x d : spec_float) : spec_float :=
  match x with S754_zero _ | S754_nan => d | _ => x end.

(** [const total = (INIT.maxSpins||6)*2*Math.PI + Math.random()*2*Math.PI] *)
Definition spin_total (maxSpins r : spec_float) : spec_float :=
  add (mul (mul (or_num maxSpins (num 6 0)) (num 2 0)) PI) (mul (mul r (num 2 0)) PI).

(** [const dur = Math.max(400, Math.min(10000, INIT.durationMs||5000))] *)
Definition spin_dur (durationMs : spec_float) : spec_float :=
  max (num 400 0) (min (num 10000 0) (or_num durationMs (num 5000 0))).

(** What the closure [frame] captures. *)
Record Anim := mkAnim { t0 : spec_float; start : spec_float; total : spec_float; dur : spec_float }.

(** The numbers [render_wheel] writes into [INIT]. *)
Definition render_maxSpins : spec_float := num 6 0.
Definition render_durationMs : spec_float := num 5000 0.

(** [spin()] started at [performance.now() = now] from [rotation], with the
    draw [r = Math.random()]. *)
Definition spin_anim (maxSpins durationMs r now rotation : spec_float) : Anim :=
  mkAnim now rotation (spin_total maxSpins r) (spin_dur durationMs).

Section Frame.

(** [Math.pow(x, 3)], whose rounding ECMAScript leaves to the engine. *)
Variable pow3 : spec_float -> spec_float.

(** [function easeOutCubic(t){return 1-Math.pow(1-t,3)}] *)
Definition easeOutCubic (t : spec_float) : spec_float := sub one (pow3 (sub one t)).

(** [frame(t)]: the rotation it writes, and [Some lastIdx] when it ends the
    spin ([None] when it schedules the next frame). *)
Definition frame (labels : list string) (a : Anim) (t : spec_float) : spec_float * option spec_float :=
  let p := min one (div (sub t (t0 a)) (dur a)) in
  let k := easeOutCubic p in
  let rotation := js_mod (add (start a) (mul (total a) k)) (mul (num 2 0) PI) in
  if ltb p one then (rotation, None) else (rotation, Some (winnerIndex labels rotation)).

End Frame.

(** [x*x*x], one engine's [Math.pow(x, 3)]; every engine gives [+0] at [+0]. *)
Definition cube (x : spec_float) : spec_float := mul (mul x x) x.

End Dbl.

(** ** Arithmetic lemmas *)

Lemma TWO_PI_pos : 0 < TWO_PI.
Proof. reflexivity. Qed.

Lemma Qtrunc_frac (q : Q) :
  -1 < q - inject_Z (Qtrunc q) < 1 /\ (0 <= q -> 0 <= q - inject_Z (Qtrunc q)).
Proof.
  unfold Qtrunc. destruct (Qle_bool 0 q) eqn:E.
  - apply Qle_bool_iff in E.
    pose proof (Qfloor_le q). pose proof (Qlt_floor q).
    rewrite inject_Z_plus in H0. change (inject_Z 1) with 1 in H0.
    repeat split; intros; lra.
  - assert (q < 0).
    { apply Qnot_le_lt. intro H. apply Qle_bool_iff in H. congruence. }
    pose proof (Qle_ceiling q). pose proof (Qceiling_lt q).
    unfold Z.sub in H1. rewrite inject_Z_plus, inject_Z_opp in H1. change (inject_Z 1) with 1 in H1.
    repeat split; intros; lra.
Qed.

Lemma Qpos_neq0 (x : Q) : 0 < x -> ~ x == 0.
Proof. intros H E. rewrite E in H. discriminate. Qed.

Lemma js_rem_eq (a n : Q) : ~ n == 0 ->
  js_rem a n == n * (a / n - inject_Z (Qtrunc (a / n))).
Proof. intro Hn. unfold js_rem. field. exact Hn. Qed.

Lemma js_rem_bounds (a n : Q) : 0 < n ->
  - n < js_rem a n < n /\ (0 <= a -> 0 <= js_rem a n).
Proof.
  intro Hn. assert (Hn0 : ~ n == 0) by (apply Qpos_neq0; exact Hn).
  rewrite (js_rem_eq a n Hn0).
  destruct (Qtrunc_frac (a / n)) as [[H1 H2] H3].
  split; [split; nra |].
  intro Ha. assert (0 <= a / n).
  { apply Qle_shift_div_l; [exact Hn | lra]. }
  specialize (H3 H). nra.
Qed.

Lemma js_mod_spec (a n : Q) : 0 < n ->
  0 <= js_mod a n < n /\ exists k : Z, js_mod a n == a - n * inject_Z k.
Proof.
  intro Hn. unfold js_mod.
  destruct (js_rem_bounds a n Hn) as [[H1 H2] _].
  destruct (js_rem_bounds (js_rem a n + n) n Hn) as [[H3 H4] H5].
  split; [split; [apply H5; lra | exact H4] |].
  exists (Qtrunc (a / n) - 1 + Qtrunc ((js_rem a n + n) / n))%Z.
  unfold js_rem at 1. unfold js_rem at 1.
  unfold Z.sub. rewrite !inject_Z_plus, inject_Z_opp. change (inject_Z 1) with 1.
  ring.
Qed.

Lemma js_mod_unique (x y n : Q) (k : Z) : 0 < n ->
  0 <= x < n -> 0 <= y < n -> x == y + n * inject_Z k -> x == y.
Proof.
  intros Hn [Hx1 Hx2] [Hy1 Hy2] E.
  assert (Hk1 : inject_Z k < 1) by nra.
  assert (Hk2 : -1 < inject_Z k) by nra.
  change 1 with (inject_Z 1) in Hk1. change (-1) with (inject_Z (-1)) in Hk2.
  rewrite <- Zlt_Qlt in Hk1, Hk2.
  assert (k = 0%Z) by lia. subst k. rewrite E. change (inject_Z 0) with 0. ring.
Qed.

(** [mod] forgets whole multiples of the modulus. *)
Lemma js_mod_periodic (a n : Q) (m : Z) : 0 < n ->
  js_mod (a + n * inject_Z m) n == js_mod a n.
Proof.
  intro Hn.
  destruct (js_mod_spec (a + n * inject_Z m) n Hn) as [B1 [k1 E1]].
  destruct (js_mod_spec a n Hn) as [B2 [k2 E2]].
  apply (js_mod_unique _ _ n (m - k1 + k2)%Z Hn B1 B2).
  rewrite E1, E2. unfold Z.sub. rewrite !inject_Z_plus, inject_Z_opp. ring.
Qed.

Lemma js_mod_0_l (n : Q) : 0 < n -> js_mod 0 n == 0.
Proof.
  intro Hn. destruct (js_mod_spec 0 n Hn) as [B [k E]].
  apply (js_mod_unique _ _ n (- k)%Z Hn B); [lra |].
  rewrite E, inject_Z_opp. ring.
Qed.

Lemma slice_count_pos (labels : list string) : (1 <= slice_count labels)%Z.
Proof. unfold slice_count. lia. Qed.

Lemma slice_count_nonempty (labels : list string) : labels <> [] ->
  slice_count labels = Z.of_nat (List.length labels).
Proof.
  intro H. unfold slice_count. destruct labels as [| x l]; [congruence |].
  simpl List.length. lia.
Qed.

Lemma slice_angle_spec (labels : list string) :
  0 < slice_angle labels /\ inject_Z (slice_count labels) * slice_angle labels == TWO_PI.
Proof.
  pose proof (slice_count_pos labels) as H.
  assert (Hn : 0 < inject_Z (slice_count labels)).
  { change 0 with (inject_Z 0). rewrite <- Zlt_Qlt. lia. }
  unfold slice_angle. split.
  - apply Qlt_shift_div_l; [exact Hn |]. rewrite Qmult_0_l. apply TWO_PI_pos.
  - field. apply Qpos_neq0. exact Hn.
Qed.

(** Two slices [i] and [j] containing the same angle are the same slice. *)
Lemma slices_disjoint (slice p : Q) (i j : Z) : 0 < slice ->
  inject_Z i * slice <= p < inject_Z (i + 1) * slice ->
  inject_Z j * slice <= p < inject_Z (j + 1) * slice -> i = j.
Proof.
  intros Hs [Hi1 Hi2] [Hj1 Hj2].
  assert (A : inject_Z i * slice < inject_Z (j + 1) * slice) by lra.
  assert (B : inject_Z j * slice < inject_Z (i + 1) * slice) by lra.
  apply Qmult_lt_r in A; [| exact Hs]. apply Qmult_lt_r in B; [| exact Hs].
  rewrite <- Zlt_Qlt in A, B. lia.
Qed.

Lemma winnerIndex_bounds (labels : list string) (rot : Q) :
  let n := slice_count labels in
  let slice := slice_angle labels in
  let p := js_mod (0 - rot) TWO_PI in
  (Z.of_nat (winnerIndex labels rot) < n)%Z /\
  inject_Z (Z.of_nat (winnerIndex labels rot)) * slice <= p <
    inject_Z (Z.of_nat (winnerIndex labels rot) + 1) * slice.
Proof.
  intros n slice p.
  destruct (slice_angle_spec labels) as [Hs Hns].
  destruct (js_mod_spec (0 - rot) TWO_PI TWO_PI_pos) as [[Hp1 Hp2] _].
  fold p in Hp1, Hp2.
  set (x := p / slice).
  assert (Hpx : p == x * slice) by (unfold x; field; apply Qpos_neq0; exact Hs).
  assert (Hx0 : 0 <= x) by (apply Qle_shift_div_l; [exact Hs | lra]).
  assert (Hxn : x < inject_Z n).
  { apply Qlt_shift_div_r; [exact Hs |]. unfold n, slice. lra. }
  pose proof (Qfloor_le x) as F1. pose proof (Qlt_floor x) as F2.
  assert (Ff0 : (0 <= Qfloor x)%Z).
  { pose proof (Qfloor_resp_le 0 x Hx0) as H0. exact H0. }
  assert (Ffn : (Qfloor x < n)%Z).
  { rewrite Zlt_Qlt. lra. }
  assert (W : Z.of_nat (winnerIndex labels rot) = Qfloor x).
  { unfold winnerIndex. fold n slice p x. rewrite Z.min_r by lia. lia. }
  rewrite W. split; [exact Ffn |].
  split; rewrite Hpx; apply Qmult_le_r || apply Qmult_lt_r; try exact Hs; assumption.
Qed.

Lemma slice_count_length (labels : list string) : labels <> [] ->
  inject_Z (slice_count labels) = inject_Z (Z.of_nat (List.length labels)).
Proof. intro H. rewrite (slice_count_nonempty labels H). reflexivity. Qed.

Lemma wedge_width (labels : list string) (rot : Q) (i : nat) :
  wedge_end labels rot i - wedge_start labels rot i == slice_angle labels.
Proof.
  unfold wedge_end, wedge_start. rewrite inject_Z_plus. change (inject_Z 1) with 1. ring.
Qed.

Lemma wedge_shift (labels : list string) (rot x : Q) (i : nat) :
  wedge_start labels rot i <= x < wedge_end labels rot i <->
  inject_Z (Z.of_nat i) * slice_angle labels <= x - rot <
    inject_Z (Z.of_nat i + 1) * slice_angle labels.
Proof. unfold wedge_start, wedge_end. split; intros [H1 H2]; split; lra. Qed.

Lemma painted_sum (labels : list string) (rot : Q) (k : nat) :
  painted labels rot k == inject_Z (Z.of_nat k) * slice_angle labels.
Proof.
  induction k as [| k IH]; simpl painted.
  - simpl. ring.
  - rewrite IH, wedge_width, Nat2Z.inj_succ, <- Z.add_1_r, inject_Z_plus.
    change (inject_Z 1) with 1. ring.
Qed.

(** C1: the winner is the index of the slice (in the wheel's own frame,
    where slice [i] spans [[i*slice, (i+1)*slice)]) that contains the pointer
    angle [mod(0 - rot, 2*PI)]; it is the only such slice, and the end of a
    spin records exactly this index for the final rotation. *)
Theorem winner_is_slice_under_pointer (ls : list string) (rot : Q) :
  let p := js_mod (0 - rot) TWO_PI in
  let i := winnerIndex ls rot in
  (Z.of_nat i < slice_count ls)%Z /\
  wedge_start ls 0 i <= p < wedge_end ls 0 i /\
  (forall j : nat, wedge_start ls 0 j <= p < wedge_end ls 0 j -> j = i) /\
  (forall a t s, Qle_bool 1 (progress a t) = true ->
     lastIdx (frame a t s) = Some (winnerIndex (labels s) (rotation (frame a t s)))).
Proof.
  intros p i.
  destruct (winnerIndex_bounds ls rot) as [Hn Hi]. fold p i in Hn, Hi.
  destruct (slice_angle_spec ls) as [Hs _].
  split; [exact Hn |]. split; [| split].
  - apply wedge_shift. setoid_replace (p - 0) with p by ring. exact Hi.
  - intros j Hj. apply wedge_shift in Hj. setoid_replace (p - 0) with p in Hj by ring.
    apply Nat2Z.inj. exact (slices_disjoint _ _ _ _ Hs Hj Hi).
  - intros a t s H. unfold frame. rewrite H. reflexivity.
Qed.

(** C7: for a non-empty entry list the [n] wedges of [draw(rot)] each span
    [2*PI/n], wedge [i] starts at [rot + i*(2*PI/n)], each wedge starts where
    the previous one ends, two wedges never share an angle, and the painted
    spans add up to exactly one full turn. *)
Theorem partition_complete (labels : list string) (rot : Q) : labels <> [] ->
  let n := List.length labels in
  let span := TWO_PI / inject_Z (Z.of_nat n) in
  (forall i, wedge_end labels rot i - wedge_start labels rot i == span) /\
  (forall i, wedge_start labels rot i == rot + inject_Z (Z.of_nat i) * span) /\
  (forall i, wedge_start labels rot (S i) ==
             wedge_start labels rot i + (wedge_end labels rot i - wedge_start labels rot i)) /\
  (forall i j x, (i < n)%nat -> (j < n)%nat ->
     wedge_start labels rot i <= x < wedge_end labels rot i ->
     wedge_start labels rot j <= x < wedge_end labels rot j -> i = j) /\
  painted labels rot n == TWO_PI.
Proof.
  intros Hne n span.
  assert (Hspan : slice_angle labels = span).
  { unfold span, slice_angle. rewrite slice_count_length by exact Hne. reflexivity. }
  destruct (slice_angle_spec labels) as [Hs Hns].
  split; [| split; [| split; [| split]]].
  - intro i. rewrite wedge_width, Hspan. reflexivity.
  - intro i. unfold wedge_start. rewrite Hspan. reflexivity.
  - intro i. rewrite wedge_width. unfold wedge_start.
    rewrite Nat2Z.inj_succ, <- Z.add_1_r, inject_Z_plus. change (inject_Z 1) with 1. ring.
  - intros i j x _ _ Hi Hj. apply wedge_shift in Hi, Hj.
    apply Nat2Z.inj. exact (slices_disjoint _ _ _ _ Hs Hi Hj).
  - rewrite painted_sum. rewrite slice_count_length in Hns by exact Hne. exact Hns.
Qed.

(** C3: a spin request is a no-op (the page state is returned unchanged)
    while a spin is running or with fewer than 2 slices; otherwise it starts
    a new spin from the current rotation, leaving the entries as they are. *)
Theorem spin_request_gate (INIT : Init) (r now : Q) (s : Page) :
  (spinning s = true \/ (List.length (labels s) < 2)%nat -> spin_click INIT r now s = s) /\
  (spinning s = false -> (2 <= List.length (labels s))%nat ->
     let s' := spin_click INIT r now s in
     spinning s' = true /\ labels s' = labels s /\ fulls s' = fulls s /\
     rotation s' = rotation s /\
     anim s' = Some (mkAnim now (rotation s) (spin_total INIT r) (spin_dur INIT))).
Proof.
  unfold spin_click. split.
  - intros [H | H].
    + rewrite H. reflexivity.
    + apply Nat.ltb_lt in H. rewrite H, orb_true_r. reflexivity.
  - intros H1 H2. rewrite H1. simpl.
    assert (E : (List.length (labels s) <? 2)%nat = false) by (apply Nat.ltb_ge; exact H2).
    rewrite E. simpl. repeat split.
Qed.

Lemma spin_dur_pos (INIT : Init) : 0 < spin_dur INIT.
Proof.
  unfold spin_dur.
  pose proof (Q.le_max_l 400 (Qmin 10000 (js_or_num (durationMs INIT) 5000))). lra.
Qed.

Lemma progress_mono (a : Anim) (t1 t2 : Q) : 0 < dur a -> t1 <= t2 ->
  progress a t1 <= progress a t2.
Proof.
  intros Hd H. unfold progress. apply Q.min_le_compat_l.
  apply Qle_shift_div_l; [exact Hd |].
  setoid_replace ((t1 - t0 a) / dur a * dur a) with (t1 - t0 a)
    by (field; apply Qpos_neq0; exact Hd).
  lra.
Qed.

Lemma progress_done (a : Anim) (t : Q) : 1 <= progress a t -> progress a t = 1.
Proof.
  unfold progress, Qmin, GenericMinMax.gmin.
  destruct (1 ?= (t - t0 a) / dur a) eqn:E; try reflexivity.
  intro H. apply Qgt_alt in E. lra.
Qed.

Lemma frame_rotation (a : Anim) (t : Q) (s : Page) : rotation (frame a t s) = rot_at a t.
Proof. unfold frame. destruct (negb (Qle_bool 1 (progress a t))); reflexivity. Qed.

Lemma frame_anim (a : Anim) (t : Q) (s : Page) :
  (anim (frame a t s) = Some a /\ Qle_bool 1 (progress a t) = false) \/
  (anim (frame a t s) = None /\ Qle_bool 1 (progress a t) = true).
Proof. unfold frame. destruct (Qle_bool 1 (progress a t)); simpl; auto. Qed.

(** Frames of one spin, delivered in a row: the closure stays scheduled, or
    it has ended the spin at a frame with [p = 1] and left that rotation. *)
Lemma ticks_run (a : Anim) (ts : list Q) (s0 : Page) : anim s0 = Some a ->
  let s := fold_left (fun s t' => tick t' s) ts s0 in
  anim s = Some a \/
  (anim s = None /\ exists t', In t' ts /\ progress a t' = 1 /\ rotation s = rot_at a t').
Proof.
  intro H0. induction ts as [| t ts IH] using rev_ind; simpl.
  - left. exact H0.
  - rewrite fold_left_app. simpl.
    set (s := fold_left (fun s t' => tick t' s) ts s0) in *.
    destruct IH as [Ha | [Hn [t' [Hin [Hp Hr]]]]].
    + assert (E : tick t s = frame a t s) by (unfold tick; rewrite Ha; reflexivity).
      rewrite E. destruct (frame_anim a t s) as [[A _] | [A P]]; [left; exact A | right].
      split; [exact A |]. exists t. split; [apply in_or_app; right; left; reflexivity |].
      split; [apply progress_done, Qle_bool_iff, P | apply frame_rotation].
    + assert (E : tick t s = s) by (unfold tick; rewrite Hn; reflexivity).
      right. rewrite E. split; [exact Hn |].
      exists t'. split; [apply in_or_app; left; exact Hin | split; assumption].
Qed.

(** C6: for the frame closure [a] of a spin, the rotation a frame writes
    depends on nothing but the frame's time (not on the page state it runs
    on, so a repeated frame at the same time writes the same value),
    progress never decreases with time, and after any run of earlier frames
    of that spin, a frame at a later time [t] leaves exactly [rot_at a t]. *)
Theorem tick_absolute_time (INIT : Init) (r now : Q) (s : Page) (a : Anim) :
  spinning s = false -> (2 <= List.length (labels s))%nat ->
  anim (spin_click INIT r now s) = Some a ->
  (forall t s1 s2, rotation (frame a t s1) = rotation (frame a t s2)) /\
  (forall t1 t2, t1 <= t2 -> progress a t1 <= progress a t2) /\
  (forall s0 ts t, anim s0 = Some a -> Forall (fun t' => t' <= t) ts ->
     rotation (tick t (fold_left (fun s t' => tick t' s) ts s0)) = rot_at a t).
Proof.
  intros Hs Hl Ha.
  destruct (proj2 (spin_request_gate INIT r now s) Hs Hl) as [_ [_ [_ [_ Ha']]]].
  rewrite Ha' in Ha. injection Ha as Ha. subst a.
  assert (Hd : 0 < dur (mkAnim now (rotation s) (spin_total INIT r) (spin_dur INIT)))
    by apply spin_dur_pos.
  set (a := mkAnim now (rotation s) (spin_total INIT r) (spin_dur INIT)) in *.
  split; [| split].
  - intros t s1 s2. rewrite !frame_rotation. reflexivity.
  - intros t1 t2 H. apply progress_mono; assumption.
  - intros s0 ts t H0 Hts.
    destruct (ticks_run a ts s0 H0) as [A | [A [t' [Hin [Hp Hr]]]]];
      set (s1 := fold_left (fun s t' => tick t' s) ts s0) in *.
    + unfold tick. rewrite A. apply frame_rotation.
    + unfold tick. rewrite A, Hr.
      assert (Ht : t' <= t) by (rewrite Forall_forall in Hts; apply Hts, Hin).
      pose proof (progress_mono a t' t Hd Ht) as M. rewrite Hp in M.
      unfold rot_at. rewrite Hp, (progress_done a t M). reflexivity.
Qed.

(** C2 (as the code has it): a frame computes [p = min(1, (t - t0)/dur)]
    (clamped only from above, so it is the clamp to [[0,1]] once [t >= t0]),
    eases it with [easeOutCubic], writes the rotation
    [(start + total * eased) mod 2*PI], which differs from
    [start + eased * total] by whole turns only, and ends the spin exactly
    when [p >= 1]. *)
Theorem tick_formula (a : Anim) (t : Q) (s : Page) : anim s = Some a ->
  let x := (t - t0 a) / dur a in
  let s' := tick t s in
  progress a t = Qmin 1 x /\
  rotation s' = js_mod (start a + total a * easeOutCubic (progress a t)) TWO_PI /\
  (0 <= rotation s' < TWO_PI /\
   exists k : Z, rotation s' ==
     start a + easeOutCubic (progress a t) * total a - TWO_PI * inject_Z k) /\
  (anim s' = None <-> 1 <= progress a t) /\
  (t0 a <= t -> 0 < dur a -> progress a t == spec_clamp01 x).
Proof.
  intros Ha x s'.
  assert (E : s' = frame a t s) by (unfold s', tick; rewrite Ha; reflexivity).
  rewrite E, frame_rotation.
  destruct (js_mod_spec (start a + total a * easeOutCubic (progress a t)) TWO_PI TWO_PI_pos)
    as [B [k K]].
  split; [reflexivity | split; [reflexivity | split; [split; [exact B |] | split]]].
  - exists k. unfold rot_at. rewrite K. ring.
  - destruct (frame_anim a t s) as [[A P] | [A P]]; rewrite A.
    + split; [discriminate |]. intro H. apply Qle_bool_iff in H. congruence.
    + split; [intros _; apply Qle_bool_iff, P | reflexivity].
  - intros Ht Hd. unfold spec_clamp01, progress. fold x.
    assert (Hx : 0 <= x).
    { apply Qle_shift_div_l; [exact Hd | lra]. }
    symmetry. apply Q.max_r. apply Q.min_glb; [discriminate | exact Hx].
Qed.

Lemma Qfloor_int_plus (m : Z) (r : Q) : 0 <= r < 1 -> Qfloor (inject_Z m + r) = m.
Proof.
  intros [H1 H2].
  pose proof (Qfloor_resp_le (inject_Z m) (inject_Z m + r) ltac:(lra)) as L.
  rewrite Qfloor_Z in L.
  pose proof (Qfloor_le (inject_Z m + r)) as U.
  assert (U' : inject_Z (Qfloor (inject_Z m + r)) < inject_Z (m + 1))
    by (rewrite inject_Z_plus; change (inject_Z 1) with 1; lra).
  rewrite <- Zlt_Qlt in U'. lia.
Qed.

(** C4: with the configuration [render_wheel] writes ([minSpins = maxSpins = 6]),
    every accepted spin turns the wheel by a total whose whole number of
    turns is exactly that bound (the random draw only adds a fraction of a
    turn), and the total is never below that many full turns. *)
Theorem spin_full_turns (dn fe : list string) (r now : Q) (s : Page) :
  0 <= r < 1 -> spinning s = false -> (2 <= List.length (labels s))%nat ->
  let INIT := render_wheel dn fe in
  exists a, anim (spin_click INIT r now s) = Some a /\
  minSpins INIT = maxSpins INIT /\
  inject_Z (Qfloor (total a / TWO_PI)) = maxSpins INIT /\
  maxSpins INIT * TWO_PI <= total a.
Proof.
  intros Hr Hs Hl INIT.
  destruct (proj2 (spin_request_gate INIT r now s) Hs Hl) as [_ [_ [_ [_ Ha]]]].
  eexists. split; [exact Ha |]. cbn [total].
  unfold INIT, render_wheel, spin_total. cbn [minSpins maxSpins].
  split; [reflexivity |].
  replace (js_or_num 6 6) with 6 by reflexivity.
  assert (T : 6 * 2 * Math_PI + r * 2 * Math_PI == (inject_Z 6 + r) * TWO_PI)
    by (unfold TWO_PI; ring).
  split.
  - rewrite T.
    setoid_replace ((inject_Z 6 + r) * TWO_PI / TWO_PI) with (inject_Z 6 + r)
      by (field; apply Qpos_neq0, TWO_PI_pos).
    rewrite Qfloor_int_plus by exact Hr. reflexivity.
  - rewrite T. pose proof TWO_PI_pos. change 6 with (inject_Z 6). nra.
Qed.

Lemma Qtrunc_comp (x y : Q) : x == y -> Qtrunc x = Qtrunc y.
Proof.
  intro H. unfold Qtrunc.
  destruct (Qle_bool 0 x) eqn:E1, (Qle_bool 0 y) eqn:E2.
  - rewrite H. reflexivity.
  - apply Qle_bool_iff in E1. rewrite H in E1. apply Qle_bool_iff in E1. congruence.
  - apply Qle_bool_iff in E2. rewrite <- H in E2. apply Qle_bool_iff in E2. congruence.
  - rewrite H. reflexivity.
Qed.

Lemma js_rem_comp (a b n : Q) : a == b -> js_rem a n == js_rem b n.
Proof.
  intro H. unfold js_rem.
  rewrite (Qtrunc_comp (a / n) (b / n)) by (rewrite H; reflexivity).
  rewrite H. reflexivity.
Qed.

Lemma js_mod_comp (a b n : Q) : a == b -> js_mod a n == js_mod b n.
Proof. intro H. unfold js_mod. apply js_rem_comp. rewrite (js_rem_comp a b n H). reflexivity. Qed.

Lemma winnerIndex_comp (ls : list string) (r1 r2 : Q) :
  r1 == r2 -> winnerIndex ls r1 = winnerIndex ls r2.
Proof.
  intro H. unfold winnerIndex.
  rewrite (js_mod_comp (0 - r1) (0 - r2) TWO_PI) by (rewrite H; reflexivity).
  reflexivity.
Qed.

Lemma progress_after_dur (a : Anim) (t : Q) : 0 < dur a -> t0 a + dur a <= t ->
  progress a t = 1.
Proof.
  intros Hd Ht. apply progress_done. unfold progress.
  rewrite Q.min_l; [lra |].
  apply Qle_shift_div_l; [exact Hd | lra].
Qed.

(** ** Binary64 arithmetic: every result is a canonical double *)

Section Binary64.
Local Open Scope Z_scope.

Lemma digits2_pos_size (m : positive) : digits2_pos m = Pos.size m.
Proof. induction m as [p IH | p IH |]; simpl; rewrite ?IH; reflexivity. Qed.

Lemma Zdigits2_log2 (m : Z) : 0 < m -> Zdigits2 m = Z.log2 m + 1.
Proof.
  intro H. destruct m as [| p | p]; try lia. simpl. rewrite digits2_pos_size.
  destruct p as [q | q |]; simpl; try reflexivity; rewrite Pos2Z.inj_succ; reflexivity.
Qed.

Lemma Zdigits2_bounds (m : Z) : 0 < m -> 2 ^ (Zdigits2 m - 1) <= m < 2 ^ Zdigits2 m.
Proof.
  intro H. rewrite Zdigits2_log2 by exact H. replace (Z.log2 m + 1 - 1) with (Z.log2 m) by ring.
  apply Z.log2_spec. exact H.
Qed.

Lemma Zdigits2_pos (m : Z) : 0 < m -> 1 <= Zdigits2 m.
Proof. intro H. rewrite Zdigits2_log2 by exact H. pose proof (Z.log2_nonneg m). lia. Qed.

Lemma Zdigits2_le (m k : Z) : 0 < m -> m < 2 ^ k -> 0 <= k -> Zdigits2 m <= k.
Proof.
  intros H Hk Hk0. destruct (Zdigits2_bounds m H) as [B _]. pose proof (Zdigits2_pos m H).
  destruct (Z.le_gt_cases (Zdigits2 m) k) as [L | L]; [exact L |].
  assert (2 ^ k <= 2 ^ (Zdigits2 m - 1)) by (apply Z.pow_le_mono_r; lia). lia.
Qed.

Lemma Zdigits2_ge (m k : Z) : 0 <= k -> 2 ^ k <= m -> k < Zdigits2 m.
Proof.
  intros Hk0 Hk. assert (Hm : 0 < m) by (pose proof (Z.pow_pos_nonneg 2 k); lia).
  destruct (Zdigits2_bounds m Hm) as [_ B]. pose proof (Zdigits2_pos m Hm).
  destruct (Z.le_gt_cases (Zdigits2 m) k) as [L | L]; [| exact L].
  assert (2 ^ Zdigits2 m <= 2 ^ k) by (apply Z.pow_le_mono_r; lia). lia.
Qed.

Lemma iter_pos_iter {A} (f : A -> A) (p : positive) (x : A) : iter_pos f p x = Pos.iter f x p.
Proof.
  revert x. induction p as [p IH | p IH |]; intro x; simpl; rewrite ?IH; try reflexivity.
  rewrite !Pos.iter_swap. reflexivity.
Qed.

Lemma Zpos_succ_def (p : positive) : Zpos (PosDef.Pos.succ p) = Zpos p + 1.
Proof. exact (Pos2Z.inj_succ p). Qed.

Lemma digits2_pos_shl (m p : positive) :
  Zpos (digits2_pos (Pos.iter xO m p)) = Zpos (digits2_pos m) + Zpos p.
Proof.
  induction p as [| p IH] using Pos.peano_ind.
  - change (Pos.iter xO m 1) with (xO m).
    change (digits2_pos (xO m)) with (PosDef.Pos.succ (digits2_pos m)).
    rewrite Zpos_succ_def. reflexivity.
  - rewrite Pos.iter_succ.
    change (digits2_pos (xO (Pos.iter xO m p))) with (PosDef.Pos.succ (digits2_pos (Pos.iter xO m p))).
    rewrite Zpos_succ_def, IH, Pos2Z.inj_succ. ring.
Qed.

Lemma shr_1_m (x : shr_record) : 0 <= shr_m x -> shr_m (shr_1 x) = shr_m x / 2.
Proof.
  destruct x as [m r s]. simpl. intro H.
  destruct m as [| [p | p |] | p]; simpl; try reflexivity; try lia.
  - rewrite Pos2Z.inj_xI. rewrite Z.mul_comm, Z.div_add_l by lia. reflexivity.
  - rewrite Pos2Z.inj_xO. rewrite Z.mul_comm, Z.div_mul by lia. reflexivity.
Qed.

Lemma iter_shr_1_m (x : shr_record) (p : positive) : 0 <= shr_m x ->
  shr_m (Pos.iter shr_1 x p) = shr_m x / 2 ^ Zpos p.
Proof.
  intro H. induction p as [| p IH] using Pos.peano_ind.
  - simpl. apply shr_1_m, H.
  - rewrite Pos.iter_succ, shr_1_m, IH.
    + rewrite Z.div_div by (try apply Z.pow_pos_nonneg; lia).
      rewrite Pos2Z.inj_succ, Z.pow_succ_r by lia. f_equal. ring.
    + rewrite IH. apply Z.div_pos; [exact H | apply Z.pow_pos_nonneg; lia].
Qed.

Lemma iter_shr_1_exact (m p : positive) :
  Pos.iter shr_1 (Build_shr_record (Zpos (Pos.iter xO m p)) false false) p =
  Build_shr_record (Zpos m) false false.
Proof.
  revert m. induction p as [| p IH] using Pos.peano_ind; intro m.
  - reflexivity.
  - rewrite (Pos.iter_succ_r p _ shr_1), (Pos.iter_succ p _ xO m). apply IH.
Qed.

Lemma shr_spec (x : shr_record) (e n : Z) : 0 <= shr_m x ->
  shr_m (fst (shr x e n)) = shr_m x / 2 ^ Z.max 0 n /\ snd (shr x e n) = e + Z.max 0 n /\
  0 <= shr_m (fst (shr x e n)).
Proof.
  intro H. destruct n as [| p | p]; simpl.
  - rewrite Z.div_1_r. lia.
  - rewrite iter_pos_iter, iter_shr_1_m by exact H. split; [reflexivity | split; [reflexivity |]].
    apply Z.div_pos; [exact H | apply Z.pow_pos_nonneg; lia].
  - rewrite Z.div_1_r. lia.
Qed.

Lemma fexp_eq (x : Z) : fexp Dbl.prec Dbl.emax x = Z.max (x - 53) (-1074).
Proof. reflexivity. Qed.

Lemma round_nearest_even_cases (m : Z) (l : location) :
  round_nearest_even m l = m \/ round_nearest_even m l = m + 1.
Proof. destruct l as [| [ | | ]]; simpl; auto. destruct (Z.even m); auto. Qed.

Lemma round_aux_valid (sx : bool) (m e : Z) (l : location) :
  0 < m -> e <= fexp Dbl.prec Dbl.emax (Zdigits2 m + e) ->
  valid_binary Dbl.prec Dbl.emax (binary_round_aux Dbl.prec Dbl.emax sx m e l) = true.
Proof.
  intros Hm He. unfold binary_round_aux.
  destruct (shr_fexp Dbl.prec Dbl.emax m e l) as [r1 e1] eqn:S1.
  assert (Hr1 : shr_m (shr_record_of_loc m l) = m) by (destruct l as [| []]; reflexivity).
  destruct (shr_spec (shr_record_of_loc m l) e (fexp Dbl.prec Dbl.emax (Zdigits2 m + e) - e))
    as (M1 & E1 & P1); [lia |].
  unfold shr_fexp in S1. rewrite S1 in M1, E1, P1. cbn [fst snd] in M1, E1, P1. rewrite Hr1 in M1.
  cbv beta iota.
  set (D := Zdigits2 m) in *. set (F := fexp Dbl.prec Dbl.emax (D + e)) in *.
  assert (HF : F = Z.max (D + e - 53) (-1074)) by apply fexp_eq.
  rewrite Z.max_r in M1, E1 by lia. replace (e + (F - e)) with F in E1 by ring. subst e1.
  set (m1 := shr_m r1) in *.
  destruct (Zdigits2_bounds m Hm) as [B1 B2]. fold D in B1, B2.
  assert (U1 : m1 < 2 ^ 53).
  { rewrite M1. apply Z.div_lt_upper_bound; [apply Z.pow_pos_nonneg; lia |].
    rewrite <- Z.pow_add_r by lia.
    assert (2 ^ D <= 2 ^ (F - e + 53)) by (apply Z.pow_le_mono_r; lia). lia. }
  assert (L1 : D + e - 53 >= -1074 -> 2 ^ 52 <= m1).
  { intro N. rewrite M1. apply Z.div_le_lower_bound; [apply Z.pow_pos_nonneg; lia |].
    rewrite <- Z.pow_add_r by lia.
    assert (2 ^ (F - e + 52) <= 2 ^ (D - 1)) by (apply Z.pow_le_mono_r; lia). lia. }
  set (m2 := round_nearest_even m1 (loc_of_shr_record r1)).
  assert (R2 : m2 = m1 \/ m2 = m1 + 1) by apply round_nearest_even_cases.
  destruct (shr_fexp Dbl.prec Dbl.emax m2 F loc_Exact) as [r3 e3] eqn:S3.
  destruct (shr_spec (shr_record_of_loc m2 loc_Exact) F (fexp Dbl.prec Dbl.emax (Zdigits2 m2 + F) - F))
    as (M3 & E3 & P3); [simpl; lia |].
  unfold shr_fexp in S3. rewrite S3 in M3, E3, P3. cbn [fst snd shr_record_of_loc shr_m] in M3, E3, P3.
  cbv beta iota.
  assert (C : 0 < shr_m r3 -> fexp Dbl.prec Dbl.emax (Zdigits2 (shr_m r3) + e3) = e3).
  { intro Pos3. rewrite fexp_eq.
    assert (Hm2 : 0 <= m2) by lia.
    destruct (Z.eq_dec m2 (2 ^ 53)) as [Eq | Ne].
    - assert (D2 : Zdigits2 m2 = 54) by (rewrite Eq; reflexivity).
      rewrite D2, fexp_eq in M3, E3. rewrite Eq in M3.
      replace (Z.max 0 (Z.max (54 + F - 53) (-1074) - F)) with 1 in M3, E3 by lia.
      rewrite M3. change (2 ^ 53 / 2 ^ 1) with (2 ^ 52). change (Zdigits2 (2 ^ 52)) with 53. lia.
    - assert (Lt : m2 < 2 ^ 53) by lia.
      assert (Pm2 : 0 < m2).
      { destruct (Z.eq_dec m2 0) as [Z0 | NZ]; [| lia].
        rewrite Z0 in M3. rewrite Z.div_0_l in M3 by (apply Z.pow_nonzero; lia). lia. }
      assert (D2 : Zdigits2 m2 <= 53) by (apply Zdigits2_le; lia).
      rewrite fexp_eq in M3, E3.
      replace (Z.max 0 (Z.max (Zdigits2 m2 + F - 53) (-1074) - F)) with 0 in M3, E3 by lia.
      rewrite M3, Z.pow_0_r, Z.div_1_r. rewrite Z.add_0_r in E3. rewrite E3.
      destruct (Z_ge_lt_dec (D + e - 53) (-1074)) as [N | N].
      + assert (D3 : 52 < Zdigits2 m2) by (apply Zdigits2_ge; [lia | specialize (L1 N); lia]). lia.
      + lia. }
  destruct (shr_m r3) as [| p | p] eqn:M; [reflexivity | | lia].
  destruct (Z.leb e3 (Dbl.emax - Dbl.prec)) eqn:Le; [| reflexivity].
  cbn [valid_binary]. unfold bounded, canonical_mantissa. rewrite Le, Bool.andb_true_r.
  apply Z.eqb_eq. exact (C eq_refl).
Qed.

Lemma binary_round_valid (sx : bool) (mx : positive) (ex : Z) :
  valid_binary Dbl.prec Dbl.emax (binary_round Dbl.prec Dbl.emax sx mx ex) = true.
Proof.
  unfold binary_round, shl_align.
  destruct (fexp Dbl.prec Dbl.emax (Zpos (digits2_pos mx) + ex) - ex) as [| d | d] eqn:Sh;
    cbv beta iota; apply round_aux_valid; try lia; change (Zdigits2 (Zpos ?q)) with (Zpos (digits2_pos q)).
  - lia.
  - lia.
  - rewrite digits2_pos_shl. replace (Zpos (digits2_pos mx) + Zpos d + fexp Dbl.prec Dbl.emax (Zpos (digits2_pos mx) + ex))
      with (Zpos (digits2_pos mx) + ex) by lia. lia.
Qed.

Lemma binary_normalize_valid (m e : Z) (s : bool) :
  valid_binary Dbl.prec Dbl.emax (binary_normalize Dbl.prec Dbl.emax m e s) = true.
Proof. destruct m; [reflexivity | apply binary_round_valid | apply binary_round_valid]. Qed.

Lemma add_valid (x y : spec_float) :
  valid_binary Dbl.prec Dbl.emax x = true -> valid_binary Dbl.prec Dbl.emax y = true ->
  valid_binary Dbl.prec Dbl.emax (Dbl.add x y) = true.
Proof.
  intros Hx Hy. unfold Dbl.add, SFadd.
  destruct x as [sx | sx | | sx mx ex], y as [sy | sy | | sy my ey];
    try destruct sx; try destruct sy; try reflexivity; try assumption;
    apply binary_normalize_valid.
Qed.

Lemma canonical_fexp (m : positive) (e : Z) :
  valid_binary Dbl.prec Dbl.emax (S754_finite true m e) = true \/
  valid_binary Dbl.prec Dbl.emax (S754_finite false m e) = true ->
  fexp Dbl.prec Dbl.emax (Zpos (digits2_pos m) + e) = e.
Proof.
  intros H. assert (B : bounded Dbl.prec Dbl.emax m e = true) by (destruct H; exact H).
  unfold bounded, canonical_mantissa in B. apply andb_prop in B. destruct B as [B _].
  apply Z.eqb_eq, B.
Qed.

Lemma mul_valid (x y : spec_float) :
  valid_binary Dbl.prec Dbl.emax x = true -> valid_binary Dbl.prec Dbl.emax y = true ->
  valid_binary Dbl.prec Dbl.emax (Dbl.mul x y) = true.
Proof.
  intros Hx Hy. unfold Dbl.mul, SFmul.
  destruct x as [sx | sx | | sx mx ex], y as [sy | sy | | sy my ey]; try reflexivity.
  assert (Cx : fexp Dbl.prec Dbl.emax (Zpos (digits2_pos mx) + ex) = ex)
    by (apply canonical_fexp; destruct sx; auto).
  assert (Cy : fexp Dbl.prec Dbl.emax (Zpos (digits2_pos my) + ey) = ey)
    by (apply canonical_fexp; destruct sy; auto).
  rewrite fexp_eq in Cx, Cy.
  change (Zpos (digits2_pos mx)) with (Zdigits2 (Zpos mx)) in Cx.
  change (Zpos (digits2_pos my)) with (Zdigits2 (Zpos my)) in Cy.
  apply round_aux_valid; [lia |]. rewrite fexp_eq.
  destruct (Zdigits2_bounds (Zpos mx)) as [X1 _]; [lia |].
  destruct (Zdigits2_bounds (Zpos my)) as [Y1 _]; [lia |].
  pose proof (Zdigits2_pos (Zpos mx) ltac:(lia)). pose proof (Zdigits2_pos (Zpos my) ltac:(lia)).
  assert (P : Zdigits2 (Zpos mx) - 1 + (Zdigits2 (Zpos my) - 1) < Zdigits2 (Zpos (mx * my))).
  { apply Zdigits2_ge; [lia |]. rewrite Z.pow_add_r by lia. rewrite Pos2Z.inj_mul.
    apply Z.mul_le_mono_nonneg; try lia; apply Z.pow_nonneg; lia. }
  lia.
Qed.

Lemma one_eq : Dbl.one = S754_finite false (Pos.iter xO 1%positive 52) (-52).
Proof. reflexivity. Qed.

Lemma mul_one (x : spec_float) : valid_binary Dbl.prec Dbl.emax x = true -> Dbl.mul x Dbl.one = x.
Proof.
  intro Hx. rewrite one_eq. unfold Dbl.mul, SFmul.
  destruct x as [sx | sx | | sx mx ex]; try (rewrite ?Bool.xorb_false_r; reflexivity).
  assert (Cx : fexp Dbl.prec Dbl.emax (Zpos (digits2_pos mx) + ex) = ex)
    by (apply canonical_fexp; destruct sx; auto).
  rewrite Bool.xorb_false_r.
  assert (Pm : (mx * Pos.iter xO 1 52 = Pos.iter xO mx 52)%positive)
    by (rewrite Pos.mul_comm; reflexivity).
  rewrite Pm. unfold binary_round_aux, shr_fexp.
  change (Zdigits2 (Zpos (Pos.iter xO mx 52))) with (Zpos (digits2_pos (Pos.iter xO mx 52))).
  rewrite digits2_pos_shl.
  replace (Zpos (digits2_pos mx) + Zpos 52 + (ex + -52)) with (Zpos (digits2_pos mx) + ex) by ring.
  rewrite Cx. replace (ex - (ex + -52)) with (Zpos 52) by ring.
  unfold shr. rewrite iter_pos_iter. cbn [shr_record_of_loc]. rewrite iter_shr_1_exact.
  cbn [shr_m loc_of_shr_record round_nearest_even].
  replace (ex + -52 + Zpos 52) with ex by ring.
  change (Zdigits2 (Zpos mx)) with (Zpos (digits2_pos mx)). rewrite Cx, Z.sub_diag.
  cbn [shr_m].
  unfold valid_binary, bounded in Hx. destruct sx;
  apply andb_prop in Hx; destruct Hx as [_ Hx]; rewrite Hx; reflexivity.
Qed.

Lemma SFcompare_swap (x y : spec_float) :
  SFcompare y x = option_map CompOpp (SFcompare x y).
Proof.
  destruct x as [sx | sx | | sx mx ex], y as [sy | sy | | sy my ey];
    try destruct sx; try destruct sy; try reflexivity; cbn [SFcompare option_map].
  all: assert (A : PosDef.Pos.compare_cont Eq my mx = CompOpp (PosDef.Pos.compare_cont Eq mx my))
         by (symmetry; exact (Pos.compare_cont_antisym mx my Eq)).
  all: rewrite (Z.compare_antisym ex ey); case_eq (ex ?= ey)%Z; intro C; cbn [CompOpp];
       rewrite ?A, ?CompOpp_involutive; reflexivity.
Qed.

Lemma min_one_ge (x : spec_float) : SFleb Dbl.one x = true -> Dbl.min Dbl.one x = Dbl.one.
Proof.
  intro H. unfold SFleb in H.
  assert (L : SFltb x Dbl.one = false).
  { unfold SFltb. rewrite SFcompare_swap.
    destruct (SFcompare Dbl.one x) as [[] |]; try discriminate; reflexivity. }
  unfold Dbl.min. rewrite L. destruct x; try reflexivity. discriminate.
Qed.

Section FrameEnd.
Variable pow3 : spec_float -> spec_float.
Hypothesis pow3_zero : pow3 Dbl.zero = Dbl.zero.

Lemma frame_end (labels : list string) (a : Dbl.Anim) (t : spec_float) :
  SFleb Dbl.one (Dbl.div (Dbl.sub t (Dbl.t0 a)) (Dbl.dur a)) = true ->
  Dbl.frame pow3 labels a t =
  (Dbl.js_mod (Dbl.add (Dbl.start a) (Dbl.mul (Dbl.total a) Dbl.one)) (Dbl.mul (Dbl.num 2 0) Dbl.PI),
   Some (Dbl.winnerIndex labels
     (Dbl.js_mod (Dbl.add (Dbl.start a) (Dbl.mul (Dbl.total a) Dbl.one)) (Dbl.mul (Dbl.num 2 0) Dbl.PI)))).
Proof.
  intro H. unfold Dbl.frame. rewrite (min_one_ge _ H). unfold Dbl.easeOutCubic.
  change (Dbl.sub Dbl.one Dbl.one) with Dbl.zero. rewrite pow3_zero.
  change (Dbl.sub Dbl.one Dbl.zero) with Dbl.one.
  change (Dbl.ltb Dbl.one Dbl.one) with false. reflexivity.
Qed.
End FrameEnd.

End Binary64.

(** C5 (as the code has it): the page has no forced-winner input. For any
    draw [r] of [Math.random()], a spin of the page [render_wheel] builds,
    started at time [now] from rotation [start], ends at the first frame
    whose progress [(t - now)/dur] reaches 1; that frame writes the rotation
    [mod(start + total, 2*PI)] computed in doubles, with
    [total = 6*2*PI + r*2*PI], and records [winnerIndex] of that rotation:
    the draw decides the winner. *)
Theorem spin_outcome_from_draw (pow3 : spec_float -> spec_float) (labels : list string)
    (r now start t : spec_float) :
  pow3 Dbl.zero = Dbl.zero ->
  valid_binary Dbl.prec Dbl.emax r = true ->
  SFleb Dbl.one (Dbl.div (Dbl.sub t now) (Dbl.spin_dur Dbl.render_durationMs)) = true ->
  let rot := Dbl.js_mod (Dbl.add start (Dbl.spin_total Dbl.render_maxSpins r))
               (Dbl.mul (Dbl.num 2 0) Dbl.PI) in
  Dbl.frame pow3 labels (Dbl.spin_anim Dbl.render_maxSpins Dbl.render_durationMs r now start) t =
    (rot, Some (Dbl.winnerIndex labels rot)).
Proof.
  intros Hp Hr Ht rot.
  rewrite (frame_end pow3 Hp labels
             (Dbl.spin_anim Dbl.render_maxSpins Dbl.render_durationMs r now start) t Ht).
  cbn [Dbl.spin_anim Dbl.start Dbl.total].
  rewrite mul_one; [reflexivity |].
  unfold Dbl.spin_total. apply add_valid; [reflexivity |].
  apply mul_valid; [apply mul_valid; [exact Hr | reflexivity] | reflexivity].
Qed.

(** C5: no requested index is honoured for every draw. On the two-entry
    page, spins from rotation 0 with the draws [1/4] and [1/2] end on
    slices 1 and 0. The 6 whole turns do not cancel in doubles: the draw
    [1/2] ends at 3.1415926535897967, just past [Math.PI], on slice 0.
    ([Math.pow] is only evaluated at [+0] on the last frame, so [cube]
    stands for any engine.) *)
Lemma forced_winner_counterexample :
  let run r := snd (Dbl.frame Dbl.cube ["A"%string; "B"%string]
                      (Dbl.spin_anim Dbl.render_maxSpins Dbl.render_durationMs r Dbl.zero Dbl.zero)
                      (Dbl.num 5000 0)) in
  run (Dbl.num 1 (-2)) = Some Dbl.one /\ run (Dbl.num 1 (-1)) = Some Dbl.zero /\
  Dbl.js_mod (Dbl.add Dbl.zero (Dbl.spin_total Dbl.render_maxSpins (Dbl.num 1 (-1))))
    (Dbl.mul (Dbl.num 2 0) Dbl.PI) = S754_finite false 7074237752028448 (-51) /\
  Dbl.winnerIndex ["A"%string; "B"%string] Dbl.PI = Dbl.one.
Proof. split; [| split; [| split]]; vm_compute; reflexivity. Qed.

(** C2: the rotation a frame writes is wrapped into one turn, so it is not
    [start + eased * (target - start)]: a draw of [1/2] at the last frame
    leaves half a turn, where the unwrapped formula gives six and a half. *)
Lemma tick_rotation_counterexample :
  let INIT := render_wheel ["A"%string; "B"%string] ["A - a@x.com - 1"%string; "B - b@x.com - 2"%string] in
  let s := spin_click INIT (1#2) 0 (init_page INIT) in
  exists a, anim s = Some a /\
  ~ rotation (tick 5000 s) ==
      start a + easeOutCubic (spec_clamp01 ((5000 - t0 a) / dur a)) *
                ((start a + total a) - start a).
Proof.
  eexists. split; [reflexivity |].
  intro H. apply Qeq_bool_iff in H. vm_compute in H. discriminate.
Qed.

Lemma rmAll_loop_labels (keep : string -> bool) (ls fs : list string) :
  fst (rmAll_loop keep ls fs) = filter keep ls.
Proof.
  revert fs. induction ls as [| x ls IH]; intro fs; simpl; [reflexivity |].
  specialize (IH (tl fs)). destruct (rmAll_loop keep ls (tl fs)) as [L F]. simpl in IH.
  destruct (keep x); simpl; congruence.
Qed.

Lemma rmAll_loop_pairs (keep : string -> bool) (ls fs : list string) :
  List.length ls = List.length fs ->
  let '(L, F) := rmAll_loop keep ls fs in
  combine L F = filter (fun p => keep (fst p)) (combine ls fs).
Proof.
  revert fs. induction ls as [| x ls IH]; intros [| f fs] Hlen; simpl in *;
    try discriminate; [reflexivity |].
  injection Hlen as Hlen. specialize (IH fs Hlen).
  destruct (rmAll_loop keep ls fs) as [L F].
  destruct (keep x); simpl; congruence.
Qed.

Lemma rmAll_loop_map (d : string -> string) (keep : string -> bool) (fs : list string) :
  rmAll_loop keep (map d fs) fs =
  (map d (filter (fun f => keep (d f)) fs), filter (fun f => keep (d f)) fs).
Proof.
  induction fs as [| f fs IH]; simpl; [reflexivity |].
  rewrite IH. destruct (keep (d f)); reflexivity.
Qed.

(** C8: [Eliminate All (same name)] with the winner at index [i], labelled
    [L], keeps exactly the entries whose label is not the string [L], in
    their order, drops the same positions from [fulls] (the wheel is then
    drawn from the new [labels]), and clears the winner index. *)
Theorem rmAll_removes_matching (s : Page) (i : nat) (L : string) :
  lastIdx s = Some i -> nth_error (labels s) i = Some L ->
  let s' := rmAll_click s in
  labels s' = filter (fun x => negb (String.eqb x L)) (labels s) /\
  (forall x, In x (labels s') <-> In x (labels s) /\ x <> L) /\
  lastIdx s' = None /\
  (List.length (labels s) = List.length (fulls s) ->
   combine (labels s') (fulls s') =
   filter (fun p => negb (String.eqb (fst p) L)) (combine (labels s) (fulls s))).
Proof.
  intros Hi HL s'.
  assert (E : s' = let '(L', F) := rmAll_loop (fun x => negb (String.eqb x L)) (labels s) (fulls s) in
                   mkPage L' F (rotation s) (spinning s) None true (winnerFull s) (anim s))
    by (unfold s', rmAll_click; rewrite Hi, HL; reflexivity).
  pose proof (rmAll_loop_labels (fun x => negb (String.eqb x L)) (labels s) (fulls s)) as FL.
  pose proof (rmAll_loop_pairs (fun x => negb (String.eqb x L)) (labels s) (fulls s)) as FP.
  destruct (rmAll_loop (fun x => negb (String.eqb x L)) (labels s) (fulls s)) as [L' F].
  rewrite E. cbn [labels fulls lastIdx]. simpl in FL. subst L'.
  split; [reflexivity | split; [| split; [reflexivity | exact FP]]].
  intro x. rewrite filter_In. rewrite negb_true_iff, String.eqb_neq. reflexivity.
Qed.

Lemma combine_map_self (d : string -> string) (l : list string) :
  combine (map d l) l = map (fun f => (d f, f)) l.
Proof. induction l as [| f l IH]; simpl; congruence. Qed.

Lemma splice_at_map {A B} (g : A -> B) (i : nat) (l : list A) :
  splice_at i (map g l) = map g (splice_at i l).
Proof. unfold splice_at. rewrite map_app, firstn_map, skipn_map. reflexivity. Qed.

Lemma reachable_labels_map (d : string -> string) (fe : list string) (s : Page) :
  reachable (render_wheel (map d fe) fe) s -> labels s = map d (fulls s).
Proof.
  induction 1 as [| s r now _ IH _ | s t _ IH | s _ IH | s _ IH _ | s _ IH _].
  - reflexivity.
  - unfold spin_click. destruct (_ || _); [exact IH | exact IH].
  - unfold tick. destruct (anim s) as [a |]; [| exact IH].
    unfold frame. destruct (negb _); exact IH.
  - reflexivity.
  - unfold rm1_click. destruct (lastIdx s) as [i |]; [| exact IH].
    cbn [labels fulls]. rewrite IH. apply splice_at_map.
  - unfold rmAll_click. destruct (lastIdx s) as [i |]; [| exact IH].
    rewrite IH, rmAll_loop_map. reflexivity.
Qed.

(** C10: on every state the page reaches from [render_wheel(display_names,
    full_entries)] (with [display_names] computed entry by entry from
    [full_entries], as the app does), [labels] is that display function
    mapped over [fulls]: both lists have the same length, the full record
    at any index (the winner's one included) is the one of that slice, and
    [Eliminate Winner] drops the same position from both lists. *)
Theorem page_invariant (d : string -> string) (fe : list string) (s : Page) :
  reachable (render_wheel (map d fe) fe) s ->
  labels s = map d (fulls s) /\
  List.length (labels s) = List.length (fulls s) /\
  (forall i f, nth_error (fulls s) i = Some f -> nth_error (labels s) i = Some (d f)) /\
  (forall i, lastIdx s = Some i ->
     combine (labels (rm1_click s)) (fulls (rm1_click s)) =
     splice_at i (combine (labels s) (fulls s))).
Proof.
  intro R. pose proof (reachable_labels_map d fe s R) as M.
  split; [exact M | split; [| split]].
  - rewrite M. apply length_map.
  - intros i f H. rewrite M, nth_error_map, H. reflexivity.
  - intros i Hi. unfold rm1_click. rewrite Hi. cbn [labels fulls].
    rewrite M, splice_at_map, !combine_map_self, splice_at_map. reflexivity.
Qed.

Lemma tickets_repeat_finite (strip : string -> string) (to_numeric : string -> pnum)
    (separator : string) (rows : list Row) :
  (forall r, In r rows -> exists q, ticket_numeric to_numeric (TicketsPurchased r) = PFin q) ->
  exists ks, tickets_of to_numeric rows = Some ks /\
  repeat_by (map (combine_row strip separator) rows) ks =
  List.concat (map (fun r => repeat (combine_row strip separator r) (ticket_copies to_numeric r)) rows).
Proof.
  induction rows as [| r rows IH]; intro H; simpl.
  - exists []. split; reflexivity.
  - destruct (H r (or_introl eq_refl)) as [q Hq].
    destruct IH as [ks [K R]]; [intros r' Hr'; apply H; right; exact Hr' |].
    rewrite Hq, K. simpl. eexists. split; [reflexivity |]. simpl.
    unfold ticket_copies. rewrite Hq, R. reflexivity.
Qed.

(** Where every kept row has a finite ticket value, [build_entries] returns
    the kept rows, in order, each composed and repeated
    [max(0, int64_cast(T))] times. *)
Lemma build_entries_finite (strip : string -> string) (to_numeric : string -> pnum)
    (id_value separator : string) (df : list Row) :
  (forall r, In r (filter (id_matches strip id_value) df) ->
     exists q, ticket_numeric to_numeric (TicketsPurchased r) = PFin q) ->
  build_entries strip to_numeric id_value separator df =
  Some (List.concat (map (fun r => repeat (combine_row strip separator r) (ticket_copies to_numeric r))
                    (filter (id_matches strip id_value) df))).
Proof.
  intro H. unfold build_entries.
  destruct (tickets_repeat_finite strip to_numeric separator _ H) as [ks [K R]].
  destruct (filter (id_matches strip id_value) df) as [| r rows]; [reflexivity |].
  rewrite K, R. reflexivity.
Qed.

(** C9 (failing input): pandas parses the text ["-inf"] as negative
    infinity, [fillna(0)] keeps it and [astype(int)] raises on it, so a
    matching row whose [Tickets Purchased] reads ["-inf"] (a negative value)
    makes [build_entries] fail instead of giving that row zero copies. *)
Theorem build_entries_neg_inf_raises (strip : string -> string) (to_numeric : string -> pnum) :
  to_numeric "-inf"%string = PInf true ->
  build_entries strip to_numeric "6610"%string " - "%string
    [mkRow (Some "6610"%string) (Some "Ann Lee"%string) (Some "ann@example.com"%string)
           (Some "555-0100"%string) (Some "-inf"%string)] = None.
Proof.
  intro H. unfold build_entries. cbn [filter].
  unfold id_matches. cbn [ID1]. rewrite String.eqb_refl.
  cbn [tickets_of TicketsPurchased ticket_numeric]. rewrite H. reflexivity.
Qed.

Lemma build_entries_neg_inf_raises_witness :
  (fun v => if String.eqb v "-inf" then PInf true else PNaN) "-inf"%string = PInf true /\
  build_entries (fun v => v) (fun v => if String.eqb v "-inf" then PInf true else PNaN)
    "6610"%string " - "%string
    [mkRow (Some "6610"%string) (Some "Ann Lee"%string) (Some "ann@example.com"%string)
           (Some "555-0100"%string) (Some "-inf"%string)] = None.
Proof. split; [reflexivity | apply build_entries_neg_inf_raises; reflexivity]. Defined.

(** ** Witnesses: the theorems' hypotheses hold on concrete pages *)

Lemma partition_complete_witness :
  ["A"%string; "B"%string; "C"%string] <> [] /\
  painted ["A"%string; "B"%string; "C"%string] 0 3 == TWO_PI.
Proof.
  split; [discriminate |].
  exact (proj2 (proj2 (proj2 (proj2
    (partition_complete ["A"%string; "B"%string; "C"%string] 0 ltac:(discriminate)))))).
Defined.

Lemma tick_absolute_time_witness :
  let INIT := render_wheel ["A"%string; "B"%string] ["A - a@x.com - 1"%string; "B - b@x.com - 2"%string] in
  let s := init_page INIT in
  let a := mkAnim 0 0 (spin_total INIT (1#2)) (spin_dur INIT) in
  spinning s = false /\ (2 <= List.length (labels s))%nat /\
  anim (spin_click INIT (1#2) 0 s) = Some a /\
  progress a 1000 <= progress a 2000.
Proof.
  intros INIT s a. split; [reflexivity | split; [simpl; lia | split; [reflexivity |]]].
  apply (proj1 (proj2 (tick_absolute_time INIT (1#2) 0 s a eq_refl ltac:(simpl; lia) eq_refl))).
  lra.
Defined.

Lemma tick_formula_witness :
  let INIT := render_wheel ["A"%string; "B"%string] ["A - a@x.com - 1"%string; "B - b@x.com - 2"%string] in
  let s := spin_click INIT (1#2) 0 (init_page INIT) in
  let a := mkAnim 0 0 (spin_total INIT (1#2)) (spin_dur INIT) in
  anim s = Some a /\ progress a 2500 = Qmin 1 ((2500 - t0 a) / dur a).
Proof.
  intros INIT s a. split; [reflexivity |].
  exact (proj1 (tick_formula a 2500 s eq_refl)).
Defined.

Lemma spin_full_turns_witness :
  let INIT := render_wheel ["A"%string; "B"%string] ["A - a@x.com - 1"%string; "B - b@x.com - 2"%string] in
  let s := init_page INIT in
  0 <= 1#2 < 1 /\ spinning s = false /\ (2 <= List.length (labels s))%nat /\
  exists a, anim (spin_click INIT (1#2) 0 s) = Some a /\ maxSpins INIT * TWO_PI <= total a.
Proof.
  intros INIT s. split; [split; lra | split; [reflexivity | split; [simpl; lia |]]].
  destruct (spin_full_turns ["A"%string; "B"%string] ["A - a@x.com - 1"%string; "B - b@x.com - 2"%string]
              (1#2) 0 s ltac:(split; lra) eq_refl ltac:(simpl; lia)) as [a [H1 [_ [_ H4]]]].
  exists a. split; [exact H1 | exact H4].
Defined.

Lemma spin_outcome_from_draw_witness :
  let rot := Dbl.js_mod (Dbl.add Dbl.zero (Dbl.spin_total Dbl.render_maxSpins (Dbl.num 1 (-1))))
               (Dbl.mul (Dbl.num 2 0) Dbl.PI) in
  Dbl.cube Dbl.zero = Dbl.zero /\ valid_binary Dbl.prec Dbl.emax (Dbl.num 1 (-1)) = true /\
  SFleb Dbl.one (Dbl.div (Dbl.sub (Dbl.num 5000 0) Dbl.zero) (Dbl.spin_dur Dbl.render_durationMs)) = true /\
  Dbl.frame Dbl.cube ["A"%string; "B"%string]
    (Dbl.spin_anim Dbl.render_maxSpins Dbl.render_durationMs (Dbl.num 1 (-1)) Dbl.zero Dbl.zero)
    (Dbl.num 5000 0) = (rot, Some (Dbl.winnerIndex ["A"%string; "B"%string] rot)).
Proof.
  intro rot.
  assert (H1 : Dbl.cube Dbl.zero = Dbl.zero) by reflexivity.
  assert (H2 : valid_binary Dbl.prec Dbl.emax (Dbl.num 1 (-1)) = true) by reflexivity.
  assert (H3 : SFleb Dbl.one (Dbl.div (Dbl.sub (Dbl.num 5000 0) Dbl.zero)
                 (Dbl.spin_dur Dbl.render_durationMs)) = true) by (vm_compute; reflexivity).
  split; [exact H1 | split; [exact H2 | split; [exact H3 |]]].
  exact (spin_outcome_from_draw Dbl.cube ["A"%string; "B"%string] (Dbl.num 1 (-1)) Dbl.zero Dbl.zero
           (Dbl.num 5000 0) H1 H2 H3).
Defined.

Lemma rmAll_removes_matching_witness :
  let s := mkPage ["A"%string; "B"%string; "A"%string] ["A - 1"%string; "B - 2"%string; "A - 3"%string]
             0 false (Some 0%nat) false "A - 1"%string None in
  lastIdx s = Some 0%nat /\ nth_error (labels s) 0 = Some "A"%string /\
  labels (rmAll_click s) = filter (fun x => negb (String.eqb x "A")) (labels s).
Proof.
  intros s. split; [reflexivity | split; [reflexivity |]].
  exact (proj1 (rmAll_removes_matching s 0 "A" eq_refl eq_refl)).
Defined.

Lemma page_invariant_witness :
  let fe := ["Ann Lee - a@x.com - 1"%string; "Bo Chen - b@x.com - 2"%string;
             "Ann Lee - c@x.com - 3"%string; "Cy Diaz - d@x.com - 4"%string] in
  let d := display_name (fun v => v) in
  let INIT := render_wheel (map d fe) fe in
  let s2 := tick 5000 (spin_click INIT (1#4) 0 (init_page INIT)) in
  let s6 := tick 11000 (spin_click INIT (1#2) 6000 (reset_click INIT (rm1_click s2))) in
  let s7 := rmAll_click s6 in
  let inv s := labels s = map d (fulls s) /\
    List.length (labels s) = List.length (fulls s) /\
    (forall i f, nth_error (fulls s) i = Some f -> nth_error (labels s) i = Some (d f)) /\
    (forall i, lastIdx s = Some i ->
       combine (labels (rm1_click s)) (fulls (rm1_click s)) =
       splice_at i (combine (labels s) (fulls s))) in
  elimsDisabled s2 = false /\ elimsDisabled s6 = false /\ lastIdx s6 <> None /\
  reachable INIT s6 /\ reachable INIT s7 /\ inv s6 /\ inv s7.
Proof.
  intros fe d INIT s2 s6 s7 inv.
  assert (E2 : elimsDisabled s2 = false) by (vm_compute; reflexivity).
  assert (E6 : elimsDisabled s6 = false) by (vm_compute; reflexivity).
  assert (L6 : lastIdx s6 <> None) by (vm_compute; discriminate).
  assert (R6 : reachable INIT s6).
  { apply R_tick, R_spin; [| split; lra].
    apply R_reset, R_rm1; [| exact E2].
    apply R_tick, R_spin; [apply R_init | split; lra]. }
  assert (R7 : reachable INIT s7) by (apply R_rmAll; [exact R6 | exact E6]).
  split; [exact E2 | split; [exact E6 | split; [exact L6 | split; [exact R6 | split; [exact R7 |]]]]].
  split; [exact (page_invariant d fe s6 R6) | exact (page_invariant d fe s7 R7)].
Defined.

(** ** The page invariant *)

Lemma splice_at_length {A} (i : nat) (l : list A) :
  (i < List.length l)%nat -> List.length (splice_at i l) = (List.length l - 1)%nat.
Proof.
  intro H. unfold splice_at. rewrite length_app, length_firstn, length_skipn. lia.
Qed.

Lemma splice_at_length_le {A} (i : nat) (l : list A) :
  (List.length (splice_at i l) <= List.length l)%nat.
Proof.
  unfold splice_at. rewrite length_app, length_firstn, length_skipn. lia.
Qed.

Lemma reachable_page_ok (INIT : Init) (s : Page) : reachable INIT s -> page_ok INIT s.
Proof.
  induction 1 as [| s r now _ IH Hr | s t _ IH | s _ IH | s _ IH He | s _ IH He].
  - unfold page_ok, init_page; cbn.
    split; [split; [discriminate | intro H; contradiction] |].
    split; [intro H; contradiction |].
    split; [discriminate |]. split; [discriminate |].
    split; [split; [lra | apply TWO_PI_pos] | lia].
  - unfold spin_click. destruct (spinning s || _) eqn:G; [exact IH |].
    apply orb_false_iff in G. destruct G as [G1 G2]. apply Nat.ltb_ge in G2.
    destruct IH as (S1 & S2 & S3 & S4 & S5 & S6).
    unfold page_ok; cbn [spinning anim elimsDisabled lastIdx labels rotation].
    split; [split; [intros _; discriminate | reflexivity] |].
    split; [intros _; lia |]. split; [discriminate |]. auto.
  - unfold tick. destruct (anim s) as [a |] eqn:A; [| exact IH].
    destruct IH as (S1 & S2 & S3 & S4 & S5 & S6).
    assert (AN : anim s <> None) by congruence.
    destruct (S2 AN) as (E1 & E2 & E3).
    destruct (js_mod_spec (start a + total a * easeOutCubic (progress a t)) TWO_PI TWO_PI_pos)
      as [B _].
    unfold frame. destruct (negb (Qle_bool 1 (progress a t))).
    + unfold page_ok; cbn [spinning anim elimsDisabled lastIdx labels rotation].
      rewrite <- A. split; [exact S1 |]. split; [intros _; auto |].
      split; [exact S3 |]. split; [exact S4 |]. split; [exact B | exact S6].
    + unfold page_ok; cbn [spinning anim elimsDisabled lastIdx labels rotation].
      split; [split; [discriminate | intro H; contradiction] |].
      split; [intro H; contradiction |]. split; [discriminate |].
      split; [| split; [exact B | exact S6]].
      intros i Hi. injection Hi as Hi. subst i.
      destruct (winnerIndex_bounds (labels s) (rot_at a t)) as [W _].
      unfold slice_count in W. lia.
  - destruct IH as (S1 & S2 & S3 & S4 & S5 & S6).
    unfold page_ok, reset_click; cbn [spinning anim elimsDisabled lastIdx labels rotation].
    split; [exact S1 |]. split; [| split; [discriminate | split; [discriminate |]]].
    + intro AN. destruct (S2 AN) as (_ & _ & E3). auto.
    + split; [split; [lra | apply TWO_PI_pos] | lia].
  - destruct IH as (S1 & S2 & S3 & S4 & S5 & S6).
    assert (AN : anim s = None).
    { destruct (anim s) eqn:A; [| reflexivity].
      destruct (S2 ltac:(discriminate)) as [H' _]. congruence. }
    unfold rm1_click. destruct (lastIdx s) as [i |] eqn:L.
    + unfold page_ok; cbn [spinning anim elimsDisabled lastIdx labels rotation].
      split; [exact S1 |]. split; [rewrite AN; intro H; contradiction |].
      split; [discriminate |]. split; [discriminate |]. split; [exact S5 |].
      pose proof (splice_at_length_le i (labels s)). lia.
    + exfalso. exact (S3 He eq_refl).
  - destruct IH as (S1 & S2 & S3 & S4 & S5 & S6).
    assert (AN : anim s = None).
    { destruct (anim s) eqn:A; [| reflexivity].
      destruct (S2 ltac:(discriminate)) as [H' _]. congruence. }
    unfold rmAll_click. destruct (lastIdx s) as [i |] eqn:L.
    + set (keep := fun x => match nth_error (labels s) i with
                            | Some v => negb (String.eqb x v) | None => true end).
      pose proof (rmAll_loop_labels keep (labels s) (fulls s)) as FL.
      destruct (rmAll_loop keep (labels s) (fulls s)) as [L' F] eqn:RL.
      simpl in FL. subst L'.
      unfold page_ok; cbn [spinning anim elimsDisabled lastIdx labels rotation].
      split; [exact S1 |]. split; [rewrite AN; intro H; contradiction |].
      split; [discriminate |]. split; [discriminate |]. split; [exact S5 |].
      pose proof (filter_length_le keep (labels s)). lia.
    + exfalso. exact (S3 He eq_refl).
Qed.

(** [spinning] is [true] exactly while a frame closure is scheduled, and a
    running spin always has the eliminate buttons disabled and at least two
    slices on the wheel. *)
Theorem reachable_spinning_scheduled (INIT : Init) (s : Page) : reachable INIT s ->
  (spinning s = true <-> anim s <> None) /\
  (spinning s = true -> elimsDisabled s = true /\ (2 <= List.length (labels s))%nat).
Proof.
  intro R. destruct (reachable_page_ok INIT s R) as (S1 & S2 & _).
  split; [exact S1 |]. intro H. apply S1, S2 in H. destruct H as (H1 & H2 & _). auto.
Qed.

(** The page's [rotation] always lies in [[0, 2*PI)]. *)
Theorem reachable_rotation_range (INIT : Init) (s : Page) : reachable INIT s ->
  0 <= rotation s < TWO_PI.
Proof. intro R. apply (reachable_page_ok INIT s R). Qed.

(** A recorded [lastIdx] always points at a slice of the wheel, so
    [labels[lastIdx]] is never [undefined] for the eliminate buttons. *)
Theorem reachable_lastIdx_in_range (INIT : Init) (s : Page) (i : nat) :
  reachable INIT s -> lastIdx s = Some i ->
  (i < List.length (labels s))%nat /\ exists L, nth_error (labels s) i = Some L.
Proof.
  intros R Hi. destruct (reachable_page_ok INIT s R) as (_ & _ & _ & S4 & _).
  specialize (S4 i Hi). split; [exact S4 |].
  destruct (nth_error (labels s) i) as [L |] eqn:E; [exists L; reflexivity |].
  apply nth_error_None in E. lia.
Qed.

(** The wheel never holds more slices than [INIT.labels]. *)
Theorem reachable_labels_bounded (INIT : Init) (s : Page) : reachable INIT s ->
  (List.length (labels s) <= List.length (init_labels INIT))%nat.
Proof. intro R. apply (reachable_page_ok INIT s R). Qed.

Lemma enabled_page_facts (INIT : Init) (s : Page) :
  reachable INIT s -> elimsDisabled s = false ->
  spinning s = false /\ anim s = None /\
  exists i, lastIdx s = Some i /\ (i < List.length (labels s))%nat.
Proof.
  intros R He. destruct (reachable_page_ok INIT s R) as (S1 & S2 & S3 & S4 & _).
  assert (AN : anim s = None).
  { destruct (anim s) eqn:A; [| reflexivity].
    destruct (S2 ltac:(discriminate)) as [H' _]. congruence. }
  split; [| split; [exact AN |]].
  - destruct (spinning s) eqn:Sp; [| reflexivity].
    exfalso. apply (proj1 S1 eq_refl). exact AN.
  - destruct (lastIdx s) as [i |] eqn:L; [| exfalso; exact (S3 He eq_refl)].
    exists i. split; [reflexivity | apply S4; reflexivity].
Qed.

(** The eliminate buttons are enabled only when no spin runs and a winner
    index is recorded, pointing at a slice of the wheel. *)
Theorem elims_enabled_winner_recorded (INIT : Init) (s : Page) :
  reachable INIT s -> elimsDisabled s = false ->
  spinning s = false /\ anim s = None /\
  exists i, lastIdx s = Some i /\ (i < List.length (labels s))%nat.
Proof. apply enabled_page_facts. Qed.

(** [Eliminate Winner] on an enabled button removes exactly one slice, the
    winner's, from both lists, and disables the buttons again. *)
Theorem rm1_removes_one (INIT : Init) (s : Page) :
  reachable INIT s -> elimsDisabled s = false ->
  let s' := rm1_click s in
  exists i, lastIdx s = Some i /\
  labels s' = splice_at i (labels s) /\ fulls s' = splice_at i (fulls s) /\
  List.length (labels s') = (List.length (labels s) - 1)%nat /\
  lastIdx s' = None /\ elimsDisabled s' = true.
Proof.
  intros R He s'. destruct (enabled_page_facts INIT s R He) as (_ & _ & i & Hi & Hl).
  exists i. unfold s', rm1_click. rewrite Hi. cbn [labels fulls lastIdx elimsDisabled].
  split; [reflexivity | split; [reflexivity | split; [reflexivity |]]].
  split; [apply splice_at_length; exact Hl | split; reflexivity].
Qed.

Lemma filter_length_lt {A} (f : A -> bool) (l : list A) (x : A) :
  In x l -> f x = false -> (List.length (filter f l) < List.length l)%nat.
Proof.
  induction l as [| y l IH]; intros H Hx; [destruct H |].
  simpl. destruct H as [<- | H].
  - rewrite Hx. pose proof (filter_length_le f l). lia.
  - specialize (IH H Hx). destruct (f y); simpl; lia.
Qed.

(** [Eliminate All (same name)] on an enabled button always removes at
    least one slice: the winner's own. *)
Theorem rmAll_removes_some (INIT : Init) (s : Page) :
  reachable INIT s -> elimsDisabled s = false ->
  (List.length (labels (rmAll_click s)) < List.length (labels s))%nat.
Proof.
  intros R He. destruct (enabled_page_facts INIT s R He) as (_ & _ & i & Hi & Hl).
  destruct (nth_error (labels s) i) as [L |] eqn:HL;
    [| apply nth_error_None in HL; lia].
  unfold rmAll_click. rewrite Hi, HL.
  pose proof (rmAll_loop_labels (fun x => negb (String.eqb x L)) (labels s) (fulls s)) as FL.
  destruct (rmAll_loop _ (labels s) (fulls s)) as [L' F]. simpl in FL. subst L'.
  cbn [labels]. apply (filter_length_lt _ _ L); [exact (nth_error_In _ _ HL) |].
  rewrite String.eqb_refl. reflexivity.
Qed.

(** ** Timing of a spin *)

Lemma spin_dur_bounds (INIT : Init) : 400 <= spin_dur INIT <= 10000.
Proof.
  unfold spin_dur. split; [apply Q.le_max_l |].
  apply Q.max_lub; [discriminate | apply Q.le_min_l].
Qed.

(** A spin the page accepts is still running at every frame less than
    [400] ms after the click, and is over, with a winner index of the
    wheel recorded and the buttons enabled, at any frame [10000] ms or more
    after it, whatever [INIT.durationMs] holds. *)
Theorem spin_duration_window (INIT : Init) (r now t : Q) (s : Page) :
  spinning s = false -> (2 <= List.length (labels s))%nat ->
  let s' := tick t (spin_click INIT r now s) in
  (t < now + 400 -> spinning s' = true /\ anim s' <> None) /\
  (now + 10000 <= t ->
     spinning s' = false /\ anim s' = None /\ elimsDisabled s' = false /\
     exists i, lastIdx s' = Some i /\ (i < List.length (labels s))%nat).
Proof.
  intros Hs Hl s'.
  assert (G : (List.length (labels s) <? 2)%nat = false) by (apply Nat.ltb_ge; exact Hl).
  set (a := mkAnim now (rotation s) (spin_total INIT r) (spin_dur INIT)).
  assert (E : s' = frame a t (mkPage (labels s) (fulls s) (rotation s) true (lastIdx s) true "" (Some a))).
  { unfold s', spin_click. rewrite Hs, G. reflexivity. }
  destruct (spin_dur_bounds INIT) as [D1 D2].
  split; intro Ht; rewrite E.
  - assert (P : Qle_bool 1 (progress a t) = false).
    { apply not_true_iff_false. intro P. apply Qle_bool_iff in P.
      unfold progress in P. apply Q.min_glb_iff in P. destruct P as [_ P].
      assert (Hd : 0 < dur a) by (unfold a; cbn [dur]; lra).
      rewrite <- (Qmult_le_r _ _ _ Hd) in P.
      setoid_replace ((t - t0 a) / dur a * dur a) with (t - t0 a) in P
        by (field; apply Qpos_neq0; exact Hd).
      unfold a in P; cbn [t0 dur] in P. lra. }
    unfold frame. rewrite P. cbn. split; [reflexivity | discriminate].
  - assert (P : progress a t = 1).
    { apply progress_after_dur; unfold a; cbn [t0 dur]; lra. }
    unfold frame. rewrite P. cbn [negb Qle_bool Qle_bool]. simpl negb.
    cbn [spinning anim elimsDisabled lastIdx labels].
    split; [reflexivity | split; [reflexivity | split; [reflexivity |]]].
    eexists. split; [reflexivity |].
    destruct (winnerIndex_bounds (labels s) (rot_at a t)) as [W _].
    unfold slice_count in W. lia.
Qed.

(** [Reset] during a spin does not stop it: the frame closure stays
    scheduled, the next frame overwrites the reset rotation [0] with the
    spin's own, and the winner is then picked among the restored entries. *)
Theorem reset_keeps_spin (INIT : Init) (s : Page) (a : Anim) :
  anim s = Some a ->
  let s1 := reset_click INIT s in
  spinning s1 = spinning s /\ anim s1 = Some a /\ rotation s1 = 0 /\
  labels s1 = init_labels INIT /\
  (forall t, rotation (tick t s1) = rot_at a t /\ labels (tick t s1) = init_labels INIT /\
     (1 <= progress a t ->
        lastIdx (tick t s1) = Some (winnerIndex (init_labels INIT) (rot_at a t)))).
Proof.
  intros Ha s1.
  assert (A1 : anim s1 = Some a) by (unfold s1, reset_click; cbn [anim]; exact Ha).
  split; [reflexivity | split; [exact A1 | split; [reflexivity | split; [reflexivity |]]]].
  intro t. unfold tick. rewrite A1. split; [apply frame_rotation |].
  split; [unfold frame; destruct (negb _); reflexivity |].
  intro P. apply Qle_bool_iff in P. unfold frame. rewrite P. reflexivity.
Qed.

Lemma Qfloor_eq_iff (x : Q) (m : Z) : Qfloor x = m <-> inject_Z m <= x < inject_Z m + 1.
Proof.
  split.
  - intros <-. split; [apply Qfloor_le |].
    pose proof (Qlt_floor x) as H. rewrite inject_Z_plus in H. exact H.
  - intros [H1 H2].
    pose proof (Qfloor_resp_le _ _ H1) as L. rewrite Qfloor_Z in L.
    pose proof (Qfloor_le x) as U.
    assert (U' : inject_Z (Qfloor x) < inject_Z (m + 1))
      by (rewrite inject_Z_plus; change (inject_Z 1) with 1; lra).
    rewrite <- Zlt_Qlt in U'. lia.
Qed.

(** ** Easing *)

Lemma Qsq_nonneg (z : Q) : 0 <= z * z.
Proof.
  destruct (Qlt_le_dec z 0) as [H | H].
  - setoid_replace (z * z) with ((- z) * (- z)) by ring. apply Qmult_le_0_compat; lra.
  - apply Qmult_le_0_compat; exact H.
Qed.

Lemma cube_mono (x y : Q) : x <= y -> x * (x * x) <= y * (y * y).
Proof.
  intro H.
  assert (Q2 : 0 <= x * x + x * y + y * y).
  { pose proof (Qsq_nonneg (x + y)). pose proof (Qsq_nonneg x). pose proof (Qsq_nonneg y).
    lra. }
  assert (E : y * (y * y) - x * (x * x) == (y - x) * (x * x + x * y + y * y)) by ring.
  assert (0 <= (y - x) * (x * x + x * y + y * y)) by (apply Qmult_le_0_compat; lra).
  lra.
Qed.

Lemma easeOutCubic_mono (t1 t2 : Q) : t1 <= t2 -> easeOutCubic t1 <= easeOutCubic t2.
Proof.
  intro H. unfold easeOutCubic.
  change ((1 - t1) ^ 3) with ((1 - t1) * ((1 - t1) * (1 - t1))).
  change ((1 - t2) ^ 3) with ((1 - t2) * ((1 - t2) * (1 - t2))).
  pose proof (cube_mono (1 - t2) (1 - t1) ltac:(lra)). lra.
Qed.

Lemma easeOutCubic_comp (x y : Q) : x == y -> easeOutCubic x == easeOutCubic y.
Proof. intro H. unfold easeOutCubic. rewrite H. reflexivity. Qed.

(** [easeOutCubic] never decreases, fixes [0] and [1], and maps [[0,1]]
    into [[0,1]]. *)
Theorem easeOutCubic_shape :
  easeOutCubic 0 == 0 /\ easeOutCubic 1 == 1 /\
  (forall t1 t2, t1 <= t2 -> easeOutCubic t1 <= easeOutCubic t2) /\
  (forall t, 0 <= t <= 1 -> 0 <= easeOutCubic t <= 1).
Proof.
  split; [reflexivity | split; [reflexivity | split; [exact easeOutCubic_mono |]]].
  intros t [H1 H2].
  pose proof (easeOutCubic_mono 0 t H1). pose proof (easeOutCubic_mono t 1 H2).
  change (easeOutCubic 0) with 0 in *. change (easeOutCubic 1) with 1 in *. lra.
Qed.

(** The wheel only turns forward during a spin of the page [render_wheel]
    builds: before wrapping into one turn, the angle [start + total*k] a
    frame computes never decreases with the frame time; it is the start
    rotation at the click and has grown by exactly [total] from [dur] ms
    after it. *)
Theorem spin_turns_forward (dn fe : list string) (r now : Q) (s : Page) :
  0 <= r -> spinning s = false -> (2 <= List.length (labels s))%nat ->
  let INIT := render_wheel dn fe in
  exists a, anim (spin_click INIT r now s) = Some a /\
  (forall t1 t2, t1 <= t2 ->
     start a + total a * easeOutCubic (progress a t1) <=
     start a + total a * easeOutCubic (progress a t2)) /\
  start a + total a * easeOutCubic (progress a now) == rotation s /\
  (forall t, now + dur a <= t ->
     start a + total a * easeOutCubic (progress a t) == rotation s + total a).
Proof.
  intros Hr Hs Hl INIT.
  assert (G : (List.length (labels s) <? 2)%nat = false) by (apply Nat.ltb_ge; exact Hl).
  set (a := mkAnim now (rotation s) (spin_total INIT r) (spin_dur INIT)).
  exists a. split; [unfold spin_click; rewrite Hs, G; reflexivity |].
  assert (Hd : 0 < dur a) by apply spin_dur_pos.
  assert (Ht : 0 <= total a).
  { unfold a, INIT, spin_total, render_wheel. cbn [total maxSpins].
    replace (js_or_num 6 6) with 6 by reflexivity. unfold Math_PI. nra. }
  split; [| split].
  - intros t1 t2 H. pose proof (easeOutCubic_mono _ _ (progress_mono a t1 t2 Hd H)). nra.
  - assert (P0 : progress a now == 0).
    { unfold progress.
      assert (Z0 : (now - t0 a) / dur a == 0)
        by (unfold a at 1; cbn [t0]; field; apply Qpos_neq0; exact Hd).
      rewrite Z0. reflexivity. }
    rewrite (easeOutCubic_comp _ _ P0). change (easeOutCubic 0) with 0.
    unfold a. cbn [start]. ring.
  - intros t H. rewrite (progress_after_dur a t Hd) by (unfold a in *; cbn [t0] in *; exact H).
    change (easeOutCubic 1) with 1. unfold a. cbn [start]. ring.
Qed.

(** ** The builder *)

Lemma ticket_numeric_not_nan (to_numeric : string -> pnum) (x : cell) :
  ticket_numeric to_numeric x <> PNaN.
Proof. destruct x as [v |]; simpl; [destruct (to_numeric v); discriminate | discriminate]. Qed.

Lemma tickets_of_none_iff (to_numeric : string -> pnum) (rows : list Row) :
  tickets_of to_numeric rows = None <->
  exists r neg, In r rows /\ ticket_numeric to_numeric (TicketsPurchased r) = PInf neg.
Proof.
  induction rows as [| r rows IH]; simpl.
  - split; [discriminate | intros (r & neg & [] & _)].
  - pose proof (ticket_numeric_not_nan to_numeric (TicketsPurchased r)) as NN.
    destruct (ticket_numeric to_numeric (TicketsPurchased r)) as [| q | neg] eqn:T;
      [congruence | simpl | simpl].
    + destruct (tickets_of to_numeric rows) as [ks |].
      * split; [discriminate |]. intros (r' & neg & [<- | Hin] & H); [congruence |].
        assert (Some ks = None) by (apply IH; exists r', neg; auto). discriminate.
      * split; [intros _ | reflexivity].
        destruct (proj1 IH eq_refl) as (r' & neg & Hin & H). exists r', neg. auto.
    + split; [intros _; exists r, neg; auto | reflexivity].
Qed.

Lemma tickets_of_some (to_numeric : string -> pnum) (rows : list Row) (ks : list Z) :
  tickets_of to_numeric rows = Some ks ->
  List.length ks = List.length rows /\ Forall (fun k => (0 <= k)%Z) ks /\
  ks = map (fun r => Z.of_nat (ticket_copies to_numeric r)) rows.
Proof.
  revert ks. induction rows as [| r rows IH]; intros ks H; simpl in H.
  - injection H as <-. auto.
  - destruct (astype_int (ticket_numeric to_numeric (TicketsPurchased r))) as [k |] eqn:A;
      [| discriminate].
    destruct (tickets_of to_numeric rows) as [ks' |]; [| discriminate].
    injection H as <-. destruct (IH ks' eq_refl) as (L & F & M).
    simpl. split; [congruence | split; [constructor; [lia | exact F] |]].
    rewrite M. f_equal. unfold ticket_copies.
    destruct (ticket_numeric to_numeric (TicketsPurchased r)); simpl in A; try discriminate.
    injection A as <-. lia.
Qed.

(** [build_entries] raises exactly when a kept row's ticket cell parses to
    an infinity; NaN cells and text that does not parse count as [0]. *)
Theorem build_entries_none_iff (strip : string -> string) (to_numeric : string -> pnum)
    (id_value separator : string) (df : list Row) :
  build_entries strip to_numeric id_value separator df = None <->
  exists r neg, In r (filter (id_matches strip id_value) df) /\
    ticket_numeric to_numeric (TicketsPurchased r) = PInf neg.
Proof.
  rewrite <- tickets_of_none_iff. unfold build_entries.
  destruct (filter (id_matches strip id_value) df) as [| r rows]; [simpl; split; discriminate |].
  destruct (tickets_of to_numeric (r :: rows)); split; congruence.
Qed.

Lemma build_entries_some_finite (strip : string -> string) (to_numeric : string -> pnum)
    (id_value separator : string) (df : list Row) (out : list string) :
  build_entries strip to_numeric id_value separator df = Some out ->
  forall r, In r (filter (id_matches strip id_value) df) ->
  exists q, ticket_numeric to_numeric (TicketsPurchased r) = PFin q.
Proof.
  intros H r Hin.
  pose proof (ticket_numeric_not_nan to_numeric (TicketsPurchased r)) as NN.
  destruct (ticket_numeric to_numeric (TicketsPurchased r)) as [| q | neg] eqn:T;
    [congruence | exists q; reflexivity |].
  assert (N : build_entries strip to_numeric id_value separator df = None)
    by (apply build_entries_none_iff; exists r, neg; auto).
  congruence.
Qed.

Lemma In_concat_repeat {A B} (f : A -> B) (c : A -> nat) (rows : list A) (e : B) :
  In e (List.concat (map (fun r => repeat (f r) (c r)) rows)) <->
  exists r, In r rows /\ e = f r /\ (0 < c r)%nat.
Proof.
  rewrite in_concat. split.
  - intros (l & Hl & He). apply in_map_iff in Hl. destruct Hl as (r & <- & Hr).
    exists r. split; [exact Hr |]. destruct (c r) as [| k] eqn:C; [destruct He |].
    split; [exact (repeat_spec _ _ _ He) | lia].
  - intros (r & Hr & -> & Hc). exists (repeat (f r) (c r)).
    split; [apply in_map_iff; exists r; split; [reflexivity | exact Hr] |].
    destruct (c r) as [| k]; [lia | left; reflexivity].
Qed.

(** When [build_entries] succeeds, its entries are the kept rows in order,
    each composed with the separator and repeated [max(0, int64_cast(T))] times;
    an entry appears exactly when it is the composition of a kept row with
    at least one ticket, and their number is the sum of the copies. *)
Theorem build_entries_success (strip : string -> string) (to_numeric : string -> pnum)
    (id_value separator : string) (df : list Row) (out : list string) :
  build_entries strip to_numeric id_value separator df = Some out ->
  let kept := filter (id_matches strip id_value) df in
  out = List.concat (map (fun r => repeat (combine_row strip separator r) (ticket_copies to_numeric r)) kept) /\
  (forall e, In e out <->
     exists r, In r kept /\ e = combine_row strip separator r /\ (0 < ticket_copies to_numeric r)%nat) /\
  List.length out = list_sum (map (ticket_copies to_numeric) kept).
Proof.
  intros H kept.
  pose proof (build_entries_finite strip to_numeric id_value separator df
                (build_entries_some_finite strip to_numeric id_value separator df out H)) as E.
  rewrite H in E. injection E as ->.
  split; [reflexivity | split; [intro e; apply In_concat_repeat |]].
  rewrite length_concat, map_map. f_equal. apply map_ext. intro r. apply repeat_length.
Qed.

Lemma count_pos_zero (ks : list Z) : Forall (fun k => (0 <= k)%Z) ks ->
  (List.length (filter (fun k => 0 <? k)%Z ks) + List.length (filter (fun k => k =? 0)%Z ks) =
   List.length ks)%nat.
Proof.
  induction 1 as [| k ks Hk _ IH]; simpl; [reflexivity |].
  destruct (0 <? k)%Z eqn:P, (k =? 0)%Z eqn:Z0; simpl;
    rewrite ?Z.ltb_lt, ?Z.ltb_ge, ?Z.eqb_eq, ?Z.eqb_neq in *; lia.
Qed.

(** The [info] dict [build_entries] returns is present exactly when the
    function does not raise, and its counts agree: [total_rows] is the row
    count, [kept_rows] the number of matching rows (at most [total_rows]),
    every kept row is counted once in [nonzero_ticket_rows] or
    [zero_ticket_rows], and [generated_entries] is the number of entries
    returned. *)
Theorem build_entries_info_consistent (strip : string -> string) (to_numeric : string -> pnum)
    (id_value separator : string) (df : list Row) :
  (build_entries_info strip to_numeric id_value separator df = None <->
   build_entries strip to_numeric id_value separator df = None) /\
  (forall i, build_entries_info strip to_numeric id_value separator df = Some i ->
     total_rows i = List.length df /\
     kept_rows i = List.length (filter (id_matches strip id_value) df) /\
     (kept_rows i <= total_rows i)%nat /\
     (nonzero_ticket_rows i + zero_ticket_rows i = kept_rows i)%nat /\
     exists out, build_entries strip to_numeric id_value separator df = Some out /\
       generated_entries i = List.length out).
Proof.
  pose proof (filter_length_le (id_matches strip id_value) df) as FL.
  unfold build_entries_info, build_entries.
  destruct (filter (id_matches strip id_value) df) as [| r rows] eqn:F.
  - split; [split; discriminate |]. intros i Hi. injection Hi as <-. cbn.
    split; [reflexivity | split; [reflexivity | split; [lia | split; [reflexivity |]]]].
    exists []. split; reflexivity.
  - destruct (tickets_of to_numeric (r :: rows)) as [ks |] eqn:T.
    + split; [split; discriminate |]. intros i Hi. injection Hi as <-. cbn.
      destruct (tickets_of_some to_numeric _ ks T) as (L & P & _).
      split; [reflexivity | split; [reflexivity | split; [exact FL | split]]].
      * rewrite count_pos_zero by exact P. exact L.
      * eexists. split; reflexivity.
    + split; [split; reflexivity | intros i Hi; discriminate].
Qed.

(** ** Wedge colours *)

Lemma js_rem_small (x n : Q) : 0 <= x < n -> js_rem x n == x.
Proof.
  intros [H1 H2]. assert (Hn : 0 < n) by lra.
  assert (T : Qtrunc (x / n) = 0%Z).
  { unfold Qtrunc.
    assert (D : 0 <= x / n) by (apply Qle_shift_div_l; [exact Hn | lra]).
    apply Qle_bool_iff in D. rewrite D. apply Qle_bool_iff in D.
    apply Qfloor_eq_iff. split; [exact D |].
    apply Qlt_shift_div_r; [exact Hn |]. change (inject_Z 0 + 1) with 1. lra. }
  unfold js_rem. rewrite T. change (inject_Z 0) with 0. ring.
Qed.

Lemma js_index_int (xs : list Q) (m : Q) (z : Z) : m == inject_Z z -> (0 <= z)%Z ->
  js_index xs m = nth_error xs (Z.to_nat z).
Proof.
  intros H Hz. unfold js_index.
  rewrite (Qfloor_comp m (inject_Z z) H), Qfloor_Z.
  assert (E : Qeq_bool m (inject_Z z) = true) by (apply Qeq_bool_iff; exact H).
  rewrite E. apply Z.leb_le in Hz. rewrite Hz. reflexivity.
Qed.

Lemma js_round_mono (x y : Q) : x <= y -> (js_round x <= js_round y)%Z.
Proof. intro H. unfold js_round. apply Qfloor_resp_le. lra. Qed.

(** A channel between [p = v*(1-s)] and [v] prints between [61] and [242]. *)
Lemma hsv_channel (x : Q) : hsv_v * (1 - hsv_s) <= x <= hsv_v ->
  (61 <= js_round (x * 255) <= 242)%Z.
Proof.
  intros [H1 H2].
  pose proof (js_round_mono (hsv_v * (1 - hsv_s) * 255) (x * 255) ltac:(lra)) as L.
  pose proof (js_round_mono (x * 255) (hsv_v * 255) ltac:(lra)) as U.
  change (js_round (hsv_v * (1 - hsv_s) * 255)) with 61%Z in L.
  change (js_round (hsv_v * 255)) with 242%Z in U. lia.
Qed.

(** [hsv(i,n)] for a wedge index [i >= 0]: every colour is a valid
    [rgb(r,g,b)] (no channel reads [undefined]), all channels lie in
    [[61, 242]], and each colour has one channel at [242] (the value [.95])
    and one at [61] (the floor [v*(1-s)]), whatever [n] is. *)
Theorem hsv_channels (i n : Q) : 0 <= i ->
  exists r g b, hsv i n = Some (r, g, b) /\
  (61 <= r <= 242)%Z /\ (61 <= g <= 242)%Z /\ (61 <= b <= 242)%Z /\
  (r = 242 \/ g = 242 \/ b = 242)%Z /\ (r = 61 \/ g = 61 \/ b = 61)%Z.
Proof.
  intro Hi. unfold hsv. cbv zeta.
  assert (HM : 0 < Qmax 1 n) by (pose proof (Q.le_max_l 1 n); lra).
  assert (Ha : 0 <= i / Qmax 1 n) by (apply Qle_shift_div_l; [exact HM | lra]).
  set (h := js_rem (i / Qmax 1 n) 1).
  destruct (js_rem_bounds (i / Qmax 1 n) 1 ltac:(lra)) as [[_ Hh1] Hh0].
  specialize (Hh0 Ha). fold h in Hh1, Hh0.
  set (fr := js_rem (h * 6) 1).
  destruct (js_rem_bounds (h * 6) 1 ltac:(lra)) as [[_ Hf1] Hf0].
  specialize (Hf0 ltac:(lra)). fold fr in Hf1, Hf0.
  set (zf := Qfloor (h * 6)).
  assert (Z0 : (0 <= zf)%Z) by (apply (Qfloor_resp_le 0); lra).
  assert (Z5 : (zf < 6)%Z).
  { pose proof (Qfloor_le (h * 6)) as F. fold zf in F.
    assert (F' : inject_Z zf < inject_Z 6) by (change (inject_Z 6) with 6; lra).
    rewrite <- Zlt_Qlt in F'. exact F'. }
  assert (M : js_rem (inject_Z zf) 6 == inject_Z zf).
  { apply js_rem_small. split.
    - change 0 with (inject_Z 0). rewrite <- Zle_Qle. exact Z0.
    - change 6 with (inject_Z 6). rewrite <- Zlt_Qlt. exact Z5. }
  rewrite !(js_index_int _ _ zf M Z0).
  set (v := hsv_v). set (s := hsv_s).
  assert (Hv : 0 < v) by reflexivity.
  assert (Hs : s == 3 # 4) by reflexivity.
  set (p := v * (1 - s)).
  set (q := v * (1 - fr * s)).
  set (t := v * (1 - (1 - fr) * s)).
  assert (Bv : p <= v <= v) by (unfold p; rewrite Hs; nra).
  assert (Bp : p <= p <= v) by (unfold p; rewrite Hs; nra).
  assert (Bq : p <= q <= v) by (unfold p, q; rewrite Hs; nra).
  assert (Bt : p <= t <= v) by (unfold p, t; rewrite Hs; nra).
  assert (Rv : js_round (v * 255) = 242%Z) by reflexivity.
  assert (Rp : js_round (p * 255) = 61%Z) by reflexivity.
  pose proof (hsv_channel v Bv). pose proof (hsv_channel p Bp).
  pose proof (hsv_channel q Bq). pose proof (hsv_channel t Bt).
  assert (K : (Z.to_nat zf < 6)%nat) by lia.
  destruct (Z.to_nat zf) as [| [| [| [| [| [| k]]]]]]; [.. | lia]; cbn [nth_error];
    do 3 eexists; (split; [reflexivity |]);
    rewrite ?Rv, ?Rp; repeat split; lia.
Qed.

(** ** Label fitting *)

Lemma shrink_font_spec (measure : Z -> Q) (maxW : Q) (fuel : nat) (font : Z) :
  (9 <= font)%Z ->
  let res := shrink_font measure maxW fuel font in
  (9 <= res <= font)%Z /\
  (forall k, (res < k <= font)%Z -> maxW < measure k) /\
  ((font - 9 <= Z.of_nat fuel)%Z -> (9 < res)%Z -> measure res <= maxW).
Proof.
  revert font. induction fuel as [| f IH]; intros font H9 res; simpl in res.
  - split; [lia | split; [intros k Hk; lia | intros Hf Hr; lia]].
  - destruct (negb (Qle_bool (measure font) maxW) && (9 <? font)%Z) eqn:C.
    + apply andb_true_iff in C. destruct C as [C1 C2].
      apply negb_true_iff in C1. apply Z.ltb_lt in C2.
      assert (W : maxW < measure font).
      { apply Qnot_le_lt. intro L. apply Qle_bool_iff in L. congruence. }
      destruct (IH (font - 1)%Z ltac:(lia)) as (B & O & F). fold res in B, O, F.
      split; [lia | split].
      * intros k Hk. destruct (Z.eq_dec k font) as [-> | Hne]; [exact W |]. apply O. lia.
      * intros Hf Hr. apply F; [lia | exact Hr].
    + unfold res. split; [lia | split; [intros k Hk; lia |]].
      intros _ Hr. apply andb_false_iff in C. destruct C as [C | C].
      * apply negb_false_iff, Qle_bool_iff in C. exact C.
      * apply Z.ltb_ge in C. lia.
Qed.

(** The auto-fit loop of [draw] picks a font size between [9] and [18]
    px: the largest size at which the label fits [maxW] (every larger size
    up to [18] overflows), or [9] when no size does. *)
Theorem label_font_fit (measure : Z -> Q) (maxW : Q) :
  let font := label_font measure maxW in
  (9 <= font <= 18)%Z /\
  ((9 < font)%Z -> measure font <= maxW) /\
  (forall k, (font < k <= 18)%Z -> maxW < measure k).
Proof.
  intro font. destruct (shrink_font_spec measure maxW 9 18 ltac:(lia)) as (B & O & F).
  split; [exact B | split; [apply F; simpl; lia | exact O]].
Qed.

(** ** The winner log *)

Lemma split_dash_step (c c1 c2 : ascii) (r : string) :
  split_dash (String c (String c1 (String c2 r))) =
  if Ascii.eqb c " " && Ascii.eqb c1 "-" && Ascii.eqb c2 " "
  then ""%string :: split_dash r
  else cons_head c (split_dash (String c1 (String c2 r))).
Proof. reflexivity. Qed.

Lemma has_sep_step (c c1 c2 : ascii) (r : string) :
  has_sep (String c (String c1 (String c2 r))) =
  (Ascii.eqb c " " && Ascii.eqb c1 "-" && Ascii.eqb c2 " ") || has_sep (String c1 (String c2 r)).
Proof. reflexivity. Qed.

Lemma split_dash_nosep (s : string) : has_sep s = false -> split_dash s = [s].
Proof.
  induction s as [| c rest IH]; intro H; [reflexivity |].
  destruct rest as [| c1 [| c2 r']]; [reflexivity | reflexivity |].
  rewrite has_sep_step in H. apply orb_false_iff in H. destruct H as [T H'].
  rewrite split_dash_step, T, (IH H'). reflexivity.
Qed.

Lemma app_dash_heads (a rest : string) :
  exists c1 c2 t1 t2, (a ++ " -")%string = String c1 (String c2 t1) /\
                      (a ++ " - " ++ rest)%string = String c1 (String c2 t2).
Proof.
  destruct a as [| d [| e a']]; simpl; do 4 eexists; split; reflexivity.
Qed.

Lemma split_dash_app_sep (a rest : string) : has_sep (a ++ " -") = false ->
  split_dash (a ++ " - " ++ rest) = a :: split_dash rest.
Proof.
  induction a as [| c a IH]; intro H; [reflexivity |].
  destruct (app_dash_heads a rest) as (c1 & c2 & t1 & t2 & E1 & E2).
  change ((String c a ++ " -")%string) with (String c (a ++ " -")) in H.
  change ((String c a ++ " - " ++ rest)%string) with (String c (a ++ " - " ++ rest)).
  rewrite E1 in H. rewrite E2.
  rewrite has_sep_step in H. apply orb_false_iff in H. destruct H as [T H']. rewrite <- E1 in H'.
  rewrite split_dash_step, T, <- E2, (IH H'). reflexivity.
Qed.

Lemma js_or_str_empty (x : string) : js_or_str (Some x) "" = x.
Proof. simpl. destruct (String.eqb_spec x ""); [subst |]; reflexivity. Qed.

(** With the default separator [" - "], the winner log reads back the three
    fields an entry was composed from: [full.split(" - ")] gives exactly
    the cleaned name, email and phone, provided [" - "] does not occur in
    the phone, nor in the name or email followed by [" -"] (an occurrence
    reaching into the separator would cut the entry earlier). *)
Theorem winner_log_fields (strip trim : string -> string) (r : Row) :
  let a := clean_cell strip (FullName r) in
  let b := clean_cell strip (Email1 r) in
  let c := clean_cell strip (PhoneNumber r) in
  has_sep (a ++ " -") = false -> has_sep (b ++ " -") = false -> has_sep c = false ->
  split_dash (combine_row strip " - " r) = [a; b; c] /\
  log_fields trim (combine_row strip " - " r) = (trim a, trim b, trim c).
Proof.
  intros a b c Ha Hb Hc.
  assert (S : split_dash (combine_row strip " - " r) = [a; b; c]).
  { unfold combine_row. fold a b c.
    rewrite (split_dash_app_sep a _ Ha), (split_dash_app_sep b _ Hb), (split_dash_nosep c Hc).
    reflexivity. }
  split; [exact S |]. unfold log_fields. rewrite S. cbn [nth_error].
  rewrite !js_or_str_empty. reflexivity.
Qed.

(** The wheel label the app derives from an entry composed with [" - "] is
    the stripped name ([Full Name]), or the whole entry when that name
    strips to nothing; a non-empty entry never gets an empty label. *)
Theorem display_name_entry (strip : string -> string) (r : Row) :
  let a := clean_cell strip (FullName r) in
  has_sep (a ++ " -") = false ->
  display_name strip (combine_row strip " - " r) =
    (if String.eqb (strip a) "" then combine_row strip " - " r else strip a) /\
  (forall s, s <> ""%string -> display_name strip s <> ""%string).
Proof.
  intros a Ha. split.
  - unfold display_name, combine_row. fold a. rewrite (split_dash_app_sep a _ Ha). reflexivity.
  - intros s Hs. unfold display_name.
    destruct (String.eqb_spec (strip (hd ""%string (split_dash s))) ""); assumption.
Qed.

(** ** Witnesses: concrete pages, tables and entries for the properties above *)

Lemma reachable_spinning_scheduled_witness :
  let INIT := render_wheel ["A"%string; "B"%string] ["A - a@x.com - 1"%string; "B - b@x.com - 2"%string] in
  let s := spin_click INIT (1#4) 0 (init_page INIT) in
  reachable INIT s /\ (spinning s = true <-> anim s <> None).
Proof.
  intros INIT s.
  assert (R : reachable INIT s) by (apply R_spin; [apply R_init | split; lra]).
  split; [exact R | exact (proj1 (reachable_spinning_scheduled INIT s R))].
Defined.

Lemma reachable_rotation_range_witness :
  let INIT := render_wheel ["A"%string; "B"%string] ["A - a@x.com - 1"%string; "B - b@x.com - 2"%string] in
  let s := tick 5000 (spin_click INIT (1#4) 0 (init_page INIT)) in
  reachable INIT s /\ 0 <= rotation s < TWO_PI.
Proof.
  intros INIT s.
  assert (R : reachable INIT s) by (apply R_tick, R_spin; [apply R_init | split; lra]).
  split; [exact R | exact (reachable_rotation_range INIT s R)].
Defined.

Lemma reachable_lastIdx_in_range_witness :
  let INIT := render_wheel ["A"%string; "B"%string] ["A - a@x.com - 1"%string; "B - b@x.com - 2"%string] in
  let s := tick 5000 (spin_click INIT (1#4) 0 (init_page INIT)) in
  reachable INIT s /\ lastIdx s = Some 1%nat /\ (1 < List.length (labels s))%nat.
Proof.
  intros INIT s.
  assert (R : reachable INIT s) by (apply R_tick, R_spin; [apply R_init | split; lra]).
  assert (L : lastIdx s = Some 1%nat) by (vm_compute; reflexivity).
  split; [exact R | split; [exact L | exact (proj1 (reachable_lastIdx_in_range INIT s 1 R L))]].
Defined.

Lemma reachable_labels_bounded_witness :
  let INIT := render_wheel ["A"%string; "B"%string] ["A - a@x.com - 1"%string; "B - b@x.com - 2"%string] in
  let s := rm1_click (tick 5000 (spin_click INIT (1#4) 0 (init_page INIT))) in
  reachable INIT s /\ (List.length (labels s) <= List.length (init_labels INIT))%nat.
Proof.
  intros INIT s.
  assert (R : reachable INIT s).
  { apply R_rm1; [apply R_tick, R_spin; [apply R_init | split; lra] | vm_compute; reflexivity]. }
  split; [exact R | exact (reachable_labels_bounded INIT s R)].
Defined.

Lemma elims_enabled_winner_recorded_witness :
  let INIT := render_wheel ["A"%string; "B"%string] ["A - a@x.com - 1"%string; "B - b@x.com - 2"%string] in
  let s := tick 5000 (spin_click INIT (1#4) 0 (init_page INIT)) in
  reachable INIT s /\ elimsDisabled s = false /\ spinning s = false.
Proof.
  intros INIT s.
  assert (R : reachable INIT s) by (apply R_tick, R_spin; [apply R_init | split; lra]).
  assert (E : elimsDisabled s = false) by (vm_compute; reflexivity).
  split; [exact R | split; [exact E | exact (proj1 (elims_enabled_winner_recorded INIT s R E))]].
Defined.

Lemma rm1_removes_one_witness :
  let INIT := render_wheel ["A"%string; "B"%string] ["A - a@x.com - 1"%string; "B - b@x.com - 2"%string] in
  let s := tick 5000 (spin_click INIT (1#4) 0 (init_page INIT)) in
  reachable INIT s /\ elimsDisabled s = false /\
  exists i, lastIdx s = Some i /\ labels (rm1_click s) = splice_at i (labels s).
Proof.
  intros INIT s.
  assert (R : reachable INIT s) by (apply R_tick, R_spin; [apply R_init | split; lra]).
  assert (E : elimsDisabled s = false) by (vm_compute; reflexivity).
  split; [exact R | split; [exact E |]].
  destruct (rm1_removes_one INIT s R E) as (i & H1 & H2 & _). exists i. split; assumption.
Defined.

Lemma rmAll_removes_some_witness :
  let INIT := render_wheel ["A"%string; "B"%string] ["A - a@x.com - 1"%string; "B - b@x.com - 2"%string] in
  let s := tick 5000 (spin_click INIT (1#4) 0 (init_page INIT)) in
  reachable INIT s /\ elimsDisabled s = false /\
  (List.length (labels (rmAll_click s)) < List.length (labels s))%nat.
Proof.
  intros INIT s.
  assert (R : reachable INIT s) by (apply R_tick, R_spin; [apply R_init | split; lra]).
  assert (E : elimsDisabled s = false) by (vm_compute; reflexivity).
  split; [exact R | split; [exact E | exact (rmAll_removes_some INIT s R E)]].
Defined.

Lemma spin_duration_window_witness :
  let INIT := render_wheel ["A"%string; "B"%string] ["A - a@x.com - 1"%string; "B - b@x.com - 2"%string] in
  let s := init_page INIT in
  spinning s = false /\ (2 <= List.length (labels s))%nat /\
  spinning (tick 100 (spin_click INIT (1#4) 0 s)) = true /\
  spinning (tick 10000 (spin_click INIT (1#4) 0 s)) = false.
Proof.
  intros INIT s.
  destruct (spin_duration_window INIT (1#4) 0 100 s eq_refl ltac:(simpl; lia)) as [W1 _].
  destruct (spin_duration_window INIT (1#4) 0 10000 s eq_refl ltac:(simpl; lia)) as [_ W2].
  split; [reflexivity | split; [simpl; lia | split]].
  - exact (proj1 (W1 ltac:(lra))).
  - exact (proj1 (W2 ltac:(lra))).
Defined.

Lemma reset_keeps_spin_witness :
  let INIT := render_wheel ["A"%string; "B"%string] ["A - a@x.com - 1"%string; "B - b@x.com - 2"%string] in
  let s := spin_click INIT (1#4) 0 (init_page INIT) in
  let a := mkAnim 0 0 (spin_total INIT (1#4)) (spin_dur INIT) in
  anim s = Some a /\ rotation (tick 1000 (reset_click INIT s)) = rot_at a 1000.
Proof.
  intros INIT s a. split; [reflexivity |].
  destruct (reset_keeps_spin INIT s a eq_refl) as (_ & _ & _ & _ & H).
  exact (proj1 (H 1000)).
Defined.

Lemma spin_turns_forward_witness :
  let INIT := render_wheel ["A"%string; "B"%string] ["A - a@x.com - 1"%string; "B - b@x.com - 2"%string] in
  let s := init_page INIT in
  0 <= 1#4 /\ spinning s = false /\ (2 <= List.length (labels s))%nat /\
  exists a, anim (spin_click INIT (1#4) 0 s) = Some a /\
    start a + total a * easeOutCubic (progress a 0) == rotation s.
Proof.
  intros INIT s.
  split; [discriminate | split; [reflexivity | split; [simpl; lia |]]].
  destruct (spin_turns_forward ["A"%string; "B"%string] ["A - a@x.com - 1"%string; "B - b@x.com - 2"%string]
              (1#4) 0 s ltac:(discriminate) eq_refl ltac:(simpl; lia)) as (a & H1 & _ & H3 & _).
  exists a. split; [exact H1 | exact H3].
Defined.

Lemma build_entries_success_witness :
  let tn := fun v => if String.eqb v "2" then PFin 2 else PNaN in
  let df := [mkRow (Some "6610"%string) (Some "Ann Lee"%string) (Some "ann@example.com"%string)
                   (Some "555-0100"%string) (Some "2"%string);
             mkRow (Some "7000"%string) (Some "Bo Chen"%string) (Some "bo@example.com"%string)
                   (Some "555-0101"%string) (Some "2"%string);
             mkRow (Some " 6610 "%string) (Some "Cy Diaz"%string) None None (Some "none"%string)] in
  build_entries (fun v => v) tn "6610" " - " df =
    Some ["Ann Lee - ann@example.com - 555-0100"%string; "Ann Lee - ann@example.com - 555-0100"%string] /\
  List.length ["Ann Lee - ann@example.com - 555-0100"%string; "Ann Lee - ann@example.com - 555-0100"%string] =
    list_sum (map (ticket_copies tn) (filter (id_matches (fun v => v) "6610") df)).
Proof.
  intros tn df.
  assert (H : build_entries (fun v => v) tn "6610" " - " df =
    Some ["Ann Lee - ann@example.com - 555-0100"%string; "Ann Lee - ann@example.com - 555-0100"%string])
    by (vm_compute; reflexivity).
  split; [exact H | exact (proj2 (proj2 (build_entries_success _ _ _ _ _ _ H)))].
Defined.

Lemma hsv_channels_witness :
  0 <= 1 /\ exists r g b, hsv 1 3 = Some (r, g, b) /\ (61 <= r <= 242)%Z.
Proof.
  split; [discriminate |].
  destruct (hsv_channels 1 3 ltac:(discriminate)) as (r & g & b & H & B & _).
  exists r, g, b. split; [exact H | exact B].
Defined.

Lemma winner_log_fields_witness :
  let r := mkRow (Some "6610"%string) (Some " Ann Lee "%string) (Some "ann@example.com"%string)
                 (Some "555-0100"%string) (Some "2"%string) in
  has_sep (clean_cell (fun v => v) (FullName r) ++ " -") = false /\
  has_sep (clean_cell (fun v => v) (Email1 r) ++ " -") = false /\
  has_sep (clean_cell (fun v => v) (PhoneNumber r)) = false /\
  split_dash (combine_row (fun v => v) " - " r) =
    [" Ann Lee "%string; "ann@example.com"%string; "555-0100"%string].
Proof.
  intro r. split; [reflexivity | split; [reflexivity | split; [reflexivity |]]].
  exact (proj1 (winner_log_fields (fun v => v) (fun v => v) r eq_refl eq_refl eq_refl)).
Defined.

Lemma display_name_entry_witness :
  let r := mkRow (Some "6610"%string) (Some "Ann Lee"%string) (Some "ann@example.com"%string)
                 (Some "555-0100"%string) (Some "2"%string) in
  has_sep (clean_cell (fun v => v) (FullName r) ++ " -") = false /\
  display_name (fun v => v) (combine_row (fun v => v) " - " r) =
    (if String.eqb "Ann Lee" "" then combine_row (fun v => v) " - " r else "Ann Lee"%string).
Proof.
  intro r. split; [reflexivity |].
  exact (proj1 (display_name_entry (fun v => v) r eq_refl)).
Defined.
